(** * Trace helpers and the tree manipulator of the performance panel

    A shallow embedding of
    - [front_end/models/trace/helpers/Trace.ts]: the canonical event
      comparator, the in-place sort, the two-way ordered merge and the pairing
      of nestable async begin/end events;
    - the [TreeManipulator] class: the list of active user actions, the cache
      of visible entries and the computation of the visible entries.

    Timestamps and durations are integer microseconds ([Z]).  Objects that
    the code compares with [===] or stores in a [Set] are modelled by their
    reference. *)

From stdpp Require Import gmap strings list sorting.
From Stdlib Require Import ZArith Ascii.

Local Open Scope Z_scope.

(** ** Built-ins of the language runtime *)
Module JS.

Section array_sort.
Context {A : Type} (compareFn : A → A → Z).

(** [Array.prototype.sort] is a stable sort: an element moves in front of
    another one only when the comparator is positive on the pair taken in
    the original order.  For a comparator that is a total preorder the
    stable result is unique; it is computed here by insertion from the
    right, every element settling in front of the first element it does
    not have to follow. *)
Fixpoint sort_insert (x : A) (l : list A) : list A :=
  match l with
  | [] => [x]
  | y :: l' =>
      if bool_decide (compareFn x y ≤ 0)
      then x :: y :: l'
      else y :: sort_insert x l'
  end.

Definition Array_sort (l : list A) : list A := foldr sort_insert [] l.

(** The order the comparator stands for: [x] may stay in front of [y]. *)
Definition not_after (x y : A) : Prop := compareFn x y ≤ 0.

#[global] Instance not_after_dec x y : Decision (not_after x y).
Proof. unfold not_after. apply _. Defined.
End array_sort.

(** A [Map] iterates in insertion order, so it is kept as an association
    list whose keys are pairwise distinct. *)
Section map.
Context {K V : Type} `{EqDecision K}.

Fixpoint Map_get (m : list (K * V)) (k : K) : option V :=
  match m with
  | [] => None
  | (k', v) :: m' => if decide (k = k') then Some v else Map_get m' k
  end.

(** [set] on a present key replaces the value and keeps the position of
    the key; on an absent key it appends. *)
Fixpoint Map_set (m : list (K * V)) (k : K) (v : V) : list (K * V) :=
  match m with
  | [] => [(k, v)]
  | (k', v') :: m' =>
      if decide (k = k') then (k, v) :: m' else (k', v') :: Map_set m' k v
  end.
End map.

End JS.

(** ** [front_end/models/trace/helpers/Trace.ts] *)
Module Trace.

(** [type TimeSpan = {ts: MicroSeconds, dur?: MicroSeconds}]: every type
    with these two fields can be handed to the comparator. *)
Class TimeSpan (A : Type) := { ts : A → Z; dur : A → option Z }.

(** The phases of [Types.TraceEvents.Phase] that the helpers of this file
    look at, and one constructor for all the others. *)
Inductive Phase :=
| COMPLETE
| ASYNC_NESTABLE_START
| ASYNC_NESTABLE_INSTANT
| ASYNC_NESTABLE_END
| OTHER_PHASE (code : string).

#[global] Instance Phase_eq_dec : EqDecision Phase.
Proof. solve_decision. Defined.

Module Id2.
Record t := mk { global : option string; local : option string }.
End Id2.

(** A trace event.  [ref] stands for the identity of the object. *)
Module Event.
Record t := mk {
  ref : N;
  cat : string;
  name : string;
  ph : Phase;
  pid : Z;
  tid : Z;
  ts : Z;
  dur : option Z;
  id : option string;
  id2 : option Id2.t;
}.
End Event.

#[global] Instance Event_TimeSpan : TimeSpan Event.t :=
  {| ts := Event.ts; dur := Event.dur |}.

Section ordering.
Context {A : Type} `{TimeSpan A}.

Definition eventTimeComparator (a b : A) : Z :=
  let aBeginTime := ts a in
  let bBeginTime := ts b in
  if bool_decide (aBeginTime < bBeginTime) then -1
  else if bool_decide (aBeginTime > bBeginTime) then 1
  else
    let aDuration := default 0 (dur a) in
    let bDuration := default 0 (dur b) in
    let aEndTime := aBeginTime + aDuration in
    let bEndTime := bBeginTime + bDuration in
    if bool_decide (aEndTime > bEndTime) then -1
    else if bool_decide (aEndTime < bEndTime) then 1
    else 0.

(** The array is sorted in place; the function returns its new content. *)
Definition sortTraceEventsInPlace (events : list A) : list A :=
  JS.Array_sort eventTimeComparator events.

(** The cursors and the result array of [mergeEventsInOrder]. *)
Record MergeState := mkMerge { i : nat; j : nat; result : list A }.

(** The first loop.  [None] stands for a run that is still going when the
    fuel is spent. *)
Fixpoint merge_loop (fuel : nat) (eventsArray1 eventsArray2 : list A)
    (s : MergeState) : option MergeState :=
  match eventsArray1 !! i s, eventsArray2 !! j s with
  | Some event1, Some event2 =>
      match fuel with
      | O => None
      | S fuel' =>
          let compareValue := eventTimeComparator event1 event2 in
          let s1 :=
            if bool_decide (compareValue ≤ 0)
            then mkMerge (S (i s)) (j s) (result s ++ [event1])
            else s in
          let s2 :=
            if bool_decide (compareValue = 1)
            then mkMerge (i s1) (S (j s1)) (result s1 ++ [event2])
            else s1 in
          merge_loop fuel' eventsArray1 eventsArray2 s2
      end
  | _, _ => Some s
  end.

(** [while (k < arr.length) { result.push(arr[k++]); }] *)
Fixpoint push_rest (fuel : nat) (arr : list A) (k : nat) (res : list A)
    : option (nat * list A) :=
  match arr !! k with
  | Some e =>
      match fuel with
      | O => None
      | S fuel' => push_rest fuel' arr (S k) (res ++ [e])
      end
  | None => Some (k, res)
  end.

Definition mergeEventsInOrder_fuel (fuel : nat)
    (eventsArray1 eventsArray2 : list A) : option (list A) :=
  s ← merge_loop fuel eventsArray1 eventsArray2 (mkMerge 0 0 []);
  '(_, r1) ← push_rest fuel eventsArray1 (i s) (result s);
  '(_, r2) ← push_rest fuel eventsArray2 (j s) r1;
  Some r2.

(** Every turn of a loop advances a cursor, so the lengths of the two
    arrays bound the number of turns. *)
Definition mergeEventsInOrder (eventsArray1 eventsArray2 : list A)
    : option (list A) :=
  mergeEventsInOrder_fuel (length eventsArray1 + length eventsArray2)
    eventsArray1 eventsArray2.

(** The end of the span of an event; an absent duration counts as 0. *)
Definition endTime (a : A) : Z := ts a + default 0 (dur a).

(** A list obeys the canonical comparator when no element has to go
    behind its successor. *)
Definition sortedEvents (l : list A) : Prop :=
  Sorted (JS.not_after eventTimeComparator) l.
End ordering.

(** *** Pairing of nestable async events *)

(** [event.id ?? event.id2?.global ?? event.id2?.local] *)
Definition extractId (event : Event.t) : option string :=
  match Event.id event with
  | Some v => Some v
  | None =>
      match Event.id2 event ≫= Id2.global with
      | Some v => Some v
      | None => Event.id2 event ≫= Id2.local
      end
  end.

(** The value type of the map of matched pairs: [{begin, end}], both
    [null] at first. *)
Module EventsPair.
Record t := mk { begin : option Event.t; end_ : option Event.t }.
End EventsPair.

(** Modelled from the spec: [Platform.MapUtilities.getWithDefault] is not
    among the sources.  Section 4.2 keeps per key one record with a begin
    and an end slot, so the helper returns the value stored under the key,
    and stores the value made by the factory first when the key is new.
    It returns the value together with the map, as the map is updated. *)
Definition getWithDefault {K V : Type} `{EqDecision K}
    (map : list (K * V)) (key : K) (defaultValueFactory : unit → V)
    : V * list (K * V) :=
  match JS.Map_get map key with
  | Some value => (value, map)
  | None =>
      let value := defaultValueFactory () in
      (value, JS.Map_set map key value)
  end.

(** The template literal [`${event.cat}:${id}:${event.name}`]. *)
Definition syntheticIdOf (event : Event.t) (id : string) : string :=
  Event.cat event +:+ ":" +:+ id +:+ ":" +:+ Event.name event.

(** One turn of the loop over the unpaired events.  The record obtained
    from the map is the object that the map holds, so an assignment to one
    of its fields is a replacement of the value under the key. *)
Definition match_step (matchedPairs : list (string * EventsPair.t))
    (event : Event.t) : list (string * EventsPair.t) :=
  match extractId event with
  | None => matchedPairs
  | Some id =>
      let syntheticId := syntheticIdOf event id in
      let '(otherEventsWithID, matchedPairs) :=
        getWithDefault matchedPairs syntheticId
          (λ _, EventsPair.mk None None) in
      let isStartEvent := bool_decide (Event.ph event = ASYNC_NESTABLE_START) in
      let isEndEvent := bool_decide (Event.ph event = ASYNC_NESTABLE_END) in
      if isStartEvent then
        JS.Map_set matchedPairs syntheticId
          (EventsPair.mk (Some event) (EventsPair.end_ otherEventsWithID))
      else if isEndEvent then
        JS.Map_set matchedPairs syntheticId
          (EventsPair.mk (EventsPair.begin otherEventsWithID) (Some event))
      else matchedPairs
  end.

Definition matchBeginningAndEndEvents (unpairedEvents : list Event.t)
    : list (string * EventsPair.t) :=
  foldl match_step [] unpairedEvents.

(** [TraceEventSyntheticNestableAsyncEvent] *)
Module ArgsData.
Record t := mk { beginEvent : Event.t; endEvent : Event.t }.
End ArgsData.

Module Args.
Record t := mk { data : ArgsData.t }.
End Args.

Module Synthetic.
Record t := mk {
  cat : string;
  ph : Phase;
  pid : Z;
  tid : Z;
  id : string;
  name : string;
  dur : Z;
  ts : Z;
  args : Args.t;
}.
End Synthetic.

#[global] Instance Synthetic_TimeSpan : TimeSpan Synthetic.t :=
  {| ts := Synthetic.ts; dur := λ e, Some (Synthetic.dur e) |}.

(** The synthetic event built from a pair of which both halves are there. *)
Definition makeSynthetic (id : string) (b e : Event.t) : Synthetic.t :=
  {| Synthetic.cat := Event.cat e;
     Synthetic.ph := Event.ph e;
     Synthetic.pid := Event.pid e;
     Synthetic.tid := Event.tid e;
     Synthetic.id := id;
     Synthetic.name := Event.name b;
     Synthetic.dur := Event.ts e - Event.ts b;
     Synthetic.ts := Event.ts b;
     Synthetic.args := Args.mk (ArgsData.mk b e) |}.

(** One turn of the loop over the entries of the map. *)
Definition synthetic_step (syntheticEvents : list Synthetic.t)
    (kv : string * EventsPair.t) : list Synthetic.t :=
  let '(id, eventsPair) := kv in
  match EventsPair.begin eventsPair, EventsPair.end_ eventsPair with
  | Some b, Some e =>
      let event := makeSynthetic id b e in
      if bool_decide (Synthetic.dur event < 0) then syntheticEvents
      else syntheticEvents ++ [event]
  | _, _ => syntheticEvents
  end.

Definition createSortedSyntheticEvents
    (matchedPairs : list (string * EventsPair.t)) : list Synthetic.t :=
  let syntheticEvents := foldl synthetic_step [] matchedPairs in
  JS.Array_sort (λ a b, Synthetic.ts a - Synthetic.ts b) syntheticEvents.

Definition createMatchedSortedSyntheticEvents
    (unpairedAsyncEvents : list Event.t) : list Synthetic.t :=
  let matchedPairs := matchBeginningAndEndEvents unpairedAsyncEvents in
  let syntheticEvents := createSortedSyntheticEvents matchedPairs in
  syntheticEvents.

(** The vocabulary of the statements about pairing. *)

(** The grouping key of an event that has an identifier. *)
Definition keyOf (event : Event.t) : option string :=
  syntheticIdOf event <$> extractId event.

(** The begin events and the end events of a key, in the order of the
    input. *)
Definition beginsOf (key : string) (events : list Event.t) : list Event.t :=
  filter (λ ev, keyOf ev = Some key ∧ Event.ph ev = ASYNC_NESTABLE_START)
    events.

Definition endsOf (key : string) (events : list Event.t) : list Event.t :=
  filter (λ ev, keyOf ev = Some key ∧ Event.ph ev = ASYNC_NESTABLE_END)
    events.

(** The synthetic events that the pairing gives out for a key. *)
Definition emittedFor (key : string) (events : list Event.t)
    : list Synthetic.t :=
  filter (λ s, Synthetic.id s = key)
    (createMatchedSortedSyntheticEvents events).

(** What a pair of slots turns into: nothing when a half is missing or the
    end lies before the begin. *)
Definition pairEvent (key : string) (begin end_ : option Event.t)
    : option Synthetic.t :=
  match begin, end_ with
  | Some b, Some e =>
      if bool_decide (Event.ts e - Event.ts b < 0) then None
      else Some (makeSynthetic key b e)
  | _, _ => None
  end.

(** The same on an entry of the map. *)
Definition pairOfEntry (kv : string * EventsPair.t) : option Synthetic.t :=
  pairEvent kv.1 (EventsPair.begin kv.2) (EventsPair.end_ kv.2).

(** The slot that an event writes. *)
Definition slotUpdate (event : Event.t) (p : EventsPair.t) : EventsPair.t :=
  if bool_decide (Event.ph event = ASYNC_NESTABLE_START)
  then EventsPair.mk (Some event) (EventsPair.end_ p)
  else if bool_decide (Event.ph event = ASYNC_NESTABLE_END)
  then EventsPair.mk (EventsPair.begin p) (Some event)
  else p.

(** What the map holds under a key after the loop: a record as soon as an
    event of the input has the key, with the last begin and the last end of
    the key in its slots. *)
Definition slotsOf (key : string) (events : list Event.t)
    : option EventsPair.t :=
  if decide (Exists (λ ev, keyOf ev = Some key) events)
  then Some (EventsPair.mk (last (beginsOf key events))
               (last (endsOf key events)))
  else None.

End Trace.

(** ** The tree manipulator *)
Module TreeManipulator.

(** A renderer entry is a trace event object.  The manipulator compares
    entries with [===] and keeps them in a [Set], so an entry is the
    reference of its object. *)
Record RendererEntry := EntryRef { addr : N }.

#[global] Instance RendererEntry_eq_dec : EqDecision RendererEntry.
Proof. solve_decision. Defined.

#[global] Instance RendererEntry_countable : Countable RendererEntry :=
  inj_countable' addr EntryRef (λ e, match e with EntryRef _ => eq_refl end).

(** Modelled from the spec: the types of the renderer handler are not among
    the sources.  Section 3 gives a node one entry, a node id and a set of
    child node ids, and a tree a mapping from node ids to nodes; the thread
    holds all its entries and, when it was built, the tree.  The spec leaves
    node ids opaque; they are numbers here, so that the guard [!id] of the
    walk below, which holds of the number 0, has its meaning.  The set of
    child ids is kept in insertion order, which is the order [Array.from]
    copies it in. *)
Abbreviation RendererEntryNodeId := N (only parsing).

Module Node.
Record t := mk {
  entry : RendererEntry;
  id : RendererEntryNodeId;
  childrenIds : list RendererEntryNodeId;
}.
End Node.

#[global] Instance Node_eq_dec : EqDecision Node.t.
Proof. solve_decision. Defined.

Module Tree.
Record t := mk {
  nodes : gmap N Node.t;
  roots : list RendererEntryNodeId;
}.
End Tree.

Module Thread.
Record t := mk {
  entries : list RendererEntry;
  tree : option Tree.t;
}.
End Thread.

Inductive ActionType := MERGE_FUNCTION | COLLAPSE_FUNCTION.

#[global] Instance ActionType_eq_dec : EqDecision ActionType.
Proof. solve_decision. Defined.

Module Action.
Record t := mk { type : ActionType; entry : RendererEntry }.
End Action.

#[global] Instance Action_eq_dec : EqDecision Action.t.
Proof. solve_decision. Defined.

(** The private fields of the class. *)
Record t := mk {
  thread : Thread.t;
  entryToNode : gmap RendererEntry Node.t;
  lastVisibleEntries : option (list RendererEntry);
  activeActions : list Action.t;
}.

Definition constructor (thread : Thread.t)
    (entryToNode : gmap RendererEntry Node.t) : t :=
  mk thread entryToNode None [].

Definition actionIsActive (this : t) (action : Action.t) : bool :=
  existsb
    (λ activeAction,
      bool_decide (Action.entry action = Action.entry activeAction)
      && bool_decide (Action.type action = Action.type activeAction))
    (activeActions this).

Definition applyAction (this : t) (action : Action.t) : t :=
  if actionIsActive this action then this
  else
    mk (thread this) (entryToNode this) None (activeActions this ++ [action]).

(** The callback of [filter] answers [false] on a matching action and sets
    the flag [removedAction] on the way. *)
Definition matchesAction (action activeAction : Action.t) : bool :=
  bool_decide (Action.type activeAction = Action.type action)
  && bool_decide (Action.entry activeAction = Action.entry action).

Definition removeActiveAction (this : t) (action : Action.t) : t :=
  let removedAction := existsb (matchesAction action) (activeActions this) in
  let activeActions' :=
    List.filter (λ a, negb (matchesAction action a)) (activeActions this) in
  mk (thread this) (entryToNode this)
    (if removedAction then None else lastVisibleEntries this)
    activeActions'.

(** The loop of [#findAllAncestorsOfNode]: [childIds] is the queue and
    [ancestors] the result so far.  [!id] holds of the id 0.  [None] stands
    for a walk that is still going when the fuel is spent. *)
Fixpoint findAllAncestors_loop (fuel : nat) (tree : Tree.t)
    (childIds : list RendererEntryNodeId) (ancestors : list RendererEntry)
    : option (list RendererEntry) :=
  match childIds with
  | [] => Some ancestors
  | id :: childIds' =>
      match fuel with
      | O => None
      | S fuel' =>
          if bool_decide (id = 0%N) then Some ancestors
          else
            match Tree.nodes tree !! id with
            | Some childNode =>
                findAllAncestors_loop fuel' tree
                  (childIds' ++ Node.childrenIds childNode)
                  (ancestors ++ [Node.entry childNode])
            | None => findAllAncestors_loop fuel' tree childIds' ancestors
            end
      end
  end.

Definition findAllAncestorsOfNode (fuel : nat) (tree : Tree.t)
    (root : Node.t) : option (list RendererEntry) :=
  findAllAncestors_loop fuel tree (Node.childrenIds root) [].

(** The loop over the active actions, which fills the set [entriesToHide]. *)
Fixpoint hide_loop (fuel : nat) (this : t) (tree : Tree.t)
    (actions : list Action.t) (entriesToHide : gset RendererEntry)
    : option (gset RendererEntry) :=
  match actions with
  | [] => Some entriesToHide
  | action :: actions' =>
      match Action.type action with
      | MERGE_FUNCTION =>
          hide_loop fuel this tree actions'
            ({[Action.entry action]} ∪ entriesToHide)
      | COLLAPSE_FUNCTION =>
          match entryToNode this !! Action.entry action with
          | None => hide_loop fuel this tree actions' entriesToHide
          | Some entryNode =>
              allAncestors ← findAllAncestorsOfNode fuel tree entryNode;
              hide_loop fuel this tree actions'
                (foldl (λ s ancestor, {[ancestor]} ∪ s)
                   entriesToHide allAncestors)
          end
      end
  end.

(** The methods that read give back the answer and the object after the
    call. *)
Definition calculateVisibleEntries (fuel : nat) (this : t)
    : option (list RendererEntry * t) :=
  match lastVisibleEntries this with
  | Some cached => Some (cached, this)
  | None =>
      match Thread.tree (thread this) with
      | None => Some (Thread.entries (thread this), this)
      | Some tree =>
          let entries := Thread.entries (thread this) in
          entriesToHide ← hide_loop fuel this tree (activeActions this) ∅;
          let visible :=
            List.filter (λ entry, bool_decide (entry ∉ entriesToHide))
              entries in
          Some (visible,
                mk (thread this) (entryToNode this) (Some visible)
                  (activeActions this))
      end
  end.

Definition visibleEntries (fuel : nat) (this : t)
    : option (list RendererEntry * t) :=
  if bool_decide (length (activeActions this) = 0%nat)
  then Some (Thread.entries (thread this), this)
  else calculateVisibleEntries fuel this.

(** The vocabulary of the statements about visibility. *)

(** The objects that a manipulator made for a thread and an index can turn
    into by calls of its methods; a call of [visibleEntries] counts when it
    returns. *)
Inductive reachable (thread : Thread.t)
    (entryToNode : gmap RendererEntry Node.t) : t → Prop :=
| reachable_constructor :
    reachable thread entryToNode (constructor thread entryToNode)
| reachable_applyAction this action :
    reachable thread entryToNode this →
    reachable thread entryToNode (applyAction this action)
| reachable_removeActiveAction this action :
    reachable thread entryToNode this →
    reachable thread entryToNode (removeActiveAction this action)
| reachable_visibleEntries this fuel visible this' :
    reachable thread entryToNode this →
    visibleEntries fuel this = Some (visible, this') →
    reachable thread entryToNode this'.

(** [c] is the node of one of the child ids of [n]. *)
Definition childOf (tree : Tree.t) (c n : Node.t) : Prop :=
  ∃ id, id ∈ Node.childrenIds n ∧ Tree.nodes tree !! id = Some c.

(** [d] is a strict descendant of [n]: it is reached from [n] by one or
    more steps along child ids. *)
Definition descendantOf (tree : Tree.t) (d n : Node.t) : Prop :=
  tc (flip (childOf tree)) n d.

(** The entries met by going down from an id: the entry of its node and
    the entries of the strict descendants of its node. *)
Definition reachFrom (tree : Tree.t) (id : N) (e : RendererEntry) : Prop :=
  ∃ n, Tree.nodes tree !! id = Some n ∧
       (Node.entry n = e ∨ ∃ d, descendantOf tree d n ∧ Node.entry d = e).

(** The entries that one action hides. *)
Definition hiddenBy (entryToNode : gmap RendererEntry Node.t)
    (tree : Tree.t) (action : Action.t) (e : RendererEntry) : Prop :=
  match Action.type action with
  | MERGE_FUNCTION => e = Action.entry action
  | COLLAPSE_FUNCTION =>
      ∃ n d, entryToNode !! Action.entry action = Some n ∧
             descendantOf tree d n ∧ Node.entry d = e
  end.

(** The entries that the active actions of a manipulator hide, as a set. *)
Definition hiddenSet (this : t) (tree : Tree.t)
    (hidden : gset RendererEntry) : Prop :=
  ∀ e, e ∈ hidden ↔
       ∃ action, action ∈ activeActions this ∧
                 hiddenBy (entryToNode this) tree action e.

(** The entries of the thread that are not in a set, in their order. *)
Definition entriesOutside (this : t) (hidden : gset RendererEntry)
    : list RendererEntry :=
  List.filter (λ entry, bool_decide (entry ∉ hidden))
    (Thread.entries (thread this)).

(** A set that holds the entries of the active merge actions and, besides,
    only entries that some active action hides. *)
Definition hiddenWithin (this : t) (tree : Tree.t)
    (hidden : gset RendererEntry) : Prop :=
  (∀ action, action ∈ activeActions this →
     Action.type action = MERGE_FUNCTION → Action.entry action ∈ hidden) ∧
  (∀ e, e ∈ hidden →
     ∃ action, action ∈ activeActions this ∧
               hiddenBy (entryToNode this) tree action e).

(** The cache holds nothing or the entries outside such a set. *)
Definition cacheWithin (this : t) (tree : Tree.t) : Prop :=
  ∀ cached, lastVisibleEntries this = Some cached →
    ∃ hidden, hiddenWithin this tree hidden ∧
              cached = entriesOutside this hidden.

(** The cache is valid when it holds nothing or what the active actions
    leave visible. *)
Definition cacheValid (this : t) (tree : Tree.t) : Prop :=
  ∀ cached, lastVisibleEntries this = Some cached →
    ∃ hidden, hiddenSet this tree hidden ∧
              cached = entriesOutside this hidden.

(** The child ids of a tree form no cycle: a rank goes down along them. *)
Definition acyclic (tree : Tree.t) : Prop :=
  ∃ rank : N → nat,
    map_Forall (λ id n,
      Forall (λ c, is_Some (Tree.nodes tree !! c) → (rank c < rank id)%nat)
        (Node.childrenIds n)) (Tree.nodes tree).

(** The thread data that the renderer handler hands over: the child ids
    form no cycle, node ids are truthy, the
    index sends an entry to a node of the tree that holds this entry, and
    no two nodes of the tree hold the same entry. *)
Record wellFormed (tree : Tree.t)
    (entryToNode : gmap RendererEntry Node.t) : Prop := {
  wf_acyclic : acyclic tree;
  wf_truthy :
    map_Forall (λ _ n, Forall (λ c, c ≠ 0%N) (Node.childrenIds n))
      (Tree.nodes tree);
  wf_index :
    map_Forall (λ e n,
      Node.entry n = e ∧ Tree.nodes tree !! Node.id n = Some n) entryToNode;
  wf_entries :
    map_Forall (λ i n,
      map_Forall (λ j m, Node.entry n = Node.entry m → i = j)
        (Tree.nodes tree)) (Tree.nodes tree);
}.

(** The size of the walk from a queue of ids: one turn of the loop per id
    met. *)
Inductive walkCost (tree : Tree.t) : list N → nat → Prop :=
| walkCost_nil : walkCost tree [] 0
| walkCost_missing id ids k :
    Tree.nodes tree !! id = None →
    walkCost tree ids k →
    walkCost tree (id :: ids) (S k)
| walkCost_node id n ids k1 k2 :
    Tree.nodes tree !! id = Some n →
    walkCost tree (Node.childrenIds n) k1 →
    walkCost tree ids k2 →
    walkCost tree (id :: ids) (S (k1 + k2)).

End TreeManipulator.

(** ** Sample data *)
Module Examples.
Import Trace TreeManipulator.

(** Three complete events: two start together, the longer one first, the
    third one starts later. *)
Definition evLong : Event.t :=
  Event.mk 1 "blink" "Layout" COMPLETE 1 1 10 (Some 5) None None.
Definition evShort : Event.t :=
  Event.mk 2 "blink" "Paint" COMPLETE 1 1 10 None None None.
Definition evLate : Event.t :=
  Event.mk 3 "v8" "Compile" COMPLETE 1 1 12 (Some 1) None None.

(** A begin event and an end event of the same operation; the end event has
    its identifier in [id2.local]. *)
Definition asyncBegin : Event.t :=
  Event.mk 4 "loading" "fetch" ASYNC_NESTABLE_START 1 1 5 None (Some "7") None.
Definition asyncEnd : Event.t :=
  Event.mk 5 "loading" "fetch" ASYNC_NESTABLE_END 1 1 9 None None
    (Some (Id2.mk None (Some "7"))).

(** Two begin events and two end events of one operation, and an event
    without an identifier in between.  The identifier 9 is read off [id]
    in the first begin event, off [id2.global] (with another value in
    [id2.local]) in the later one, off [id2.local] in the first end event,
    and off [id] (with another value in [id2.global]) in the later one. *)
Definition firstBegin : Event.t :=
  Event.mk 8 "loading" "fetch" ASYNC_NESTABLE_START 1 1 1 None (Some "9") None.
Definition firstEnd : Event.t :=
  Event.mk 9 "loading" "fetch" ASYNC_NESTABLE_END 1 1 6 None None
    (Some (Id2.mk None (Some "9"))).
Definition withoutId : Event.t :=
  Event.mk 10 "loading" "fetch" ASYNC_NESTABLE_START 1 1 7 None None
    (Some (Id2.mk None None)).
Definition laterBegin : Event.t :=
  Event.mk 11 "loading" "fetch" ASYNC_NESTABLE_START 1 1 3 None None
    (Some (Id2.mk (Some "9") (Some "10"))).
Definition laterEnd : Event.t :=
  Event.mk 12 "loading" "fetch" ASYNC_NESTABLE_END 1 1 8 None (Some "9")
    (Some (Id2.mk (Some "10") None)).

Definition overwritten : list Event.t :=
  [firstBegin; firstEnd; withoutId; laterBegin; laterEnd].

(** The tree of section 8 of the specification: the root R has the children
    A and B, and A has the child A1. *)
Definition entryR := EntryRef 1.
Definition entryA := EntryRef 2.
Definition entryB := EntryRef 3.
Definition entryA1 := EntryRef 4.

Definition nodeR := Node.mk entryR 1 [2%N; 3%N].
Definition nodeA := Node.mk entryA 2 [4%N].
Definition nodeB := Node.mk entryB 3 [].
Definition nodeA1 := Node.mk entryA1 4 [].

Definition tree : Tree.t :=
  Tree.mk
    (list_to_map [(1%N, nodeR); (2%N, nodeA); (3%N, nodeB); (4%N, nodeA1)])
    [1%N].

Definition entryToNode : gmap RendererEntry Node.t :=
  list_to_map
    [(entryR, nodeR); (entryA, nodeA); (entryB, nodeB); (entryA1, nodeA1)].

Definition thread : Thread.t :=
  Thread.mk [entryR; entryA; entryA1; entryB] (Some tree).

Definition threadWithoutTree : Thread.t :=
  Thread.mk [entryR; entryA; entryA1; entryB] None.

Definition collapseA := Action.mk COLLAPSE_FUNCTION entryA.
Definition mergeB := Action.mk MERGE_FUNCTION entryB.

(** The depth of the sample tree is below 10; ids grow downwards. *)
Definition rank (id : N) : nat := 10 - N.to_nat id.

(** The manipulator of the sample thread after the user has collapsed A and
    merged B. *)
Definition collapsedAndMerged : TreeManipulator.t :=
  applyAction (applyAction (constructor thread entryToNode) collapseA) mergeB.

(** The same calls on the thread without its tree. *)
Definition collapsedAndMergedWithoutTree : TreeManipulator.t :=
  applyAction
    (applyAction (constructor threadWithoutTree entryToNode) collapseA) mergeB.

Definition mergedWithoutTree : TreeManipulator.t :=
  applyAction (constructor threadWithoutTree entryToNode) mergeB.

(** The manipulator after A was collapsed and the visible entries were asked
    for once: the cache is filled. *)
Definition collapsedAndCached : TreeManipulator.t :=
  mk thread entryToNode (Some [entryR; entryA; entryB]) [collapseA].
End Examples.

(** ** The other helpers of [front_end/models/trace/helpers/Trace.ts] *)
Module TraceHelpers.
Import Trace.

(** [EventsInThread<T>] is a map from thread ids to arrays of events, and the
    second argument of [addEventToProcessThread] a map from process ids to
    such maps.  Only [get] and [set] are used on them.  A map or an array is
    truthy, so the guards [!eventsInThread] and [!events] hold of a missing
    entry only.  The function updates the outer map in place; it is returned
    here. *)
Definition addEventToProcessThread (event : Event.t)
    (eventsInProcessThread : gmap Z (gmap Z (list Event.t)))
    : gmap Z (gmap Z (list Event.t)) :=
  let tid := Event.tid event in
  let pid := Event.pid event in
  let eventsInThread :=
    match eventsInProcessThread !! pid with
    | Some eventsInThread => eventsInThread
    | None => ∅
    end in
  let events :=
    match eventsInThread !! tid with
    | Some events => events
    | None => []
    end in
  let events := events ++ [event] in
  let eventsInThread := <[Event.tid event := events]> eventsInThread in
  <[Event.pid event := eventsInThread]> eventsInProcessThread.

(** A caller that files the events of a list one after the other. *)
Definition addEventsToProcessThread (events : list Event.t)
    (eventsInProcessThread : gmap Z (gmap Z (list Event.t)))
    : gmap Z (gmap Z (list Event.t)) :=
  foldl (λ m event, addEventToProcessThread event m) eventsInProcessThread
    events.

(** The events filed under a process and a thread. *)
Definition eventsOfThread (eventsInProcessThread : gmap Z (gmap Z (list Event.t)))
    (pid tid : Z) : list Event.t :=
  default [] (eventsInProcessThread !! pid ≫= λ m, m !! tid).

(** [getNavigationForTraceEvent].  [Platform.ArrayUtilities.nearestIndexFromEnd]
    is not among the sources; it is an argument here.  An index outside the
    array reads [undefined], which is [None]. *)
Definition getNavigationForTraceEvent
    (nearestIndexFromEnd : list Event.t → (Event.t → bool) → option nat)
    (event : Event.t) (eventFrameId : string)
    (navigationsByFrameId : gmap string (list Event.t)) : option Event.t :=
  match navigationsByFrameId !! eventFrameId with
  | None => None
  | Some navigations =>
      if bool_decide (eventFrameId = "") then None
      else
        let eventNavigationIndex :=
          nearestIndexFromEnd navigations
            (λ navigation,
               bool_decide (Event.ts navigation ≤ Event.ts event)) in
        match eventNavigationIndex with
        | None => None
        | Some index => navigations !! index
        end
  end.

(** The values of the map of [activeURLForFrameAtTime]: a frame, of which
    the function reads the url, and a window of time. *)
Module TraceWindow.
Record t := mk { min : Z; max : Z }.
End TraceWindow.

Module ProcessInfo.
Record t := mk { url : string; window : TraceWindow.t }.
End ProcessInfo.

(** The inner loop: the first entry of the array whose window holds the
    time ends the search. *)
Fixpoint searchProcessInfos (time : Z) (processes : list ProcessInfo.t)
    : option string :=
  match processes with
  | [] => None
  | processInfo :: processes' =>
      if bool_decide (TraceWindow.min (ProcessInfo.window processInfo) > time)
         || bool_decide
              (TraceWindow.max (ProcessInfo.window processInfo) < time)
      then searchProcessInfos time processes'
      else Some (ProcessInfo.url processInfo)
  end.

(** The outer loop over [processData.values()], in insertion order. *)
Fixpoint searchProcesses (time : Z) (values : list (list ProcessInfo.t))
    : option string :=
  match values with
  | [] => None
  | processes :: values' =>
      match searchProcessInfos time processes with
      | Some url => Some url
      | None => searchProcesses time values'
      end
  end.

(** The inner map is a [Map] that is iterated, so it is kept in insertion
    order. *)
Definition activeURLForFrameAtTime (frameId : string) (time : Z)
    (rendererProcessesByFrame : gmap string (list (Z * list ProcessInfo.t)))
    : option string :=
  match rendererProcessesByFrame !! frameId with
  | None => None
  | Some processData => searchProcesses time processData.*2
  end.

(** The window of a process info holds a time. *)
Definition inWindow (time : Z) (processInfo : ProcessInfo.t) : Prop :=
  TraceWindow.min (ProcessInfo.window processInfo) ≤ time ∧
  time ≤ TraceWindow.max (ProcessInfo.window processInfo).

#[global] Instance inWindow_dec time processInfo :
  Decision (inWindow time processInfo).
Proof. unfold inWindow. apply _. Defined.

(** The keys of a list of events, each at its first place only. *)
Fixpoint firstKeys (seen : list string) (events : list Event.t)
    : list string :=
  match events with
  | [] => []
  | event :: events' =>
      match keyOf event with
      | Some key =>
          if decide (key ∈ seen) then firstKeys seen events'
          else key :: firstKeys (key :: seen) events'
      | None => firstKeys seen events'
      end
  end.

(** A string without a colon. *)
Fixpoint colonFree (s : string) : Prop :=
  match s with
  | EmptyString => True
  | String c s' => c ≠ ":"%char ∧ colonFree s'
  end.


End TraceHelpers.

(** ** More sample data *)
Module MoreExamples.
Import Trace TreeManipulator Examples.

(** A begin event and an end event of different names whose keys are the
    same, because the name of the first and the identifier of the second
    hold a colon. *)
Definition collidingBegin : Event.t :=
  Event.mk 6 "loading" "a:fetch" ASYNC_NESTABLE_START 1 1 5 None (Some "7")
    None.
Definition collidingEnd : Event.t :=
  Event.mk 7 "loading" "fetch" ASYNC_NESTABLE_END 1 1 9 None (Some "7:a")
    None.

(** The manipulator of the sample thread after A was collapsed, and after R
    was collapsed. *)
Definition collapseR := Action.mk COLLAPSE_FUNCTION entryR.

Definition collapsed : TreeManipulator.t :=
  applyAction (constructor thread entryToNode) collapseA.

Definition collapsedRoot : TreeManipulator.t :=
  applyAction (constructor thread entryToNode) collapseR.

(** The actions of [collapsedAndMerged], applied the other way round. *)
Definition mergedAndCollapsed : TreeManipulator.t :=
  applyAction (applyAction (constructor thread entryToNode) mergeB) collapseA.

(** [collapsedAndMerged] after a call of [visibleEntries]. *)
Definition collapsedAndMergedCached : TreeManipulator.t :=
  mk thread entryToNode (Some [entryR; entryA]) [collapseA; mergeB].

(** A node with the id 0 among its child ids. *)
Definition nodeCut := Node.mk entryR 1 [2%N; 0%N; 3%N].
End MoreExamples.

(** * Event ordering *)

(** ** The stable sort of the runtime *)
Section array_sort_facts.
Context {A : Type} (compareFn : A → A → Z).

Abbreviation not_after := (JS.not_after compareFn).

Hypothesis not_after_total : ∀ x y, not_after x y ∨ not_after y x.
Hypothesis not_after_trans : ∀ x y z,
  not_after x y → not_after y z → not_after x z.

Lemma sort_insert_perm x l : JS.sort_insert compareFn x l ≡ₚ x :: l.
Proof.
  induction l as [|y l IH]; simpl; [done|].
  case_bool_decide; [done|].
  rewrite IH. apply Permutation_swap.
Qed.

Lemma Array_sort_perm l : JS.Array_sort compareFn l ≡ₚ l.
Proof.
  induction l as [|x l IH]; simpl; [done|].
  rewrite sort_insert_perm. by f_equiv.
Qed.

Lemma sort_insert_hd z x l :
  not_after z x → HdRel not_after z l →
  HdRel not_after z (JS.sort_insert compareFn x l).
Proof.
  intros Hzx Hl. destruct Hl as [|y l Hzy]; simpl.
  - by constructor.
  - case_bool_decide; by constructor.
Qed.

Lemma sort_insert_sorted x l :
  Sorted not_after l → Sorted not_after (JS.sort_insert compareFn x l).
Proof.
  induction 1 as [|y l Hl IH Hy]; simpl.
  - repeat constructor.
  - case_bool_decide as Hxy.
    + constructor; [by constructor|by constructor].
    + constructor; [done|].
      apply sort_insert_hd; [|done].
      destruct (not_after_total x y); [done|done].
Qed.

Lemma Array_sort_sorted l : Sorted not_after (JS.Array_sort compareFn l).
Proof.
  induction l as [|x l IH]; simpl; [constructor|].
  by apply sort_insert_sorted.
Qed.

Lemma sort_insert_front x l :
  HdRel not_after x l → JS.sort_insert compareFn x l = x :: l.
Proof.
  destruct 1 as [|y l Hxy]; simpl; [done|].
  by rewrite bool_decide_eq_true_2.
Qed.

Lemma Array_sort_fixpoint l :
  Sorted not_after l → JS.Array_sort compareFn l = l.
Proof.
  induction 1 as [|x l Hl IH Hx]; simpl; [done|].
  rewrite IH. by apply sort_insert_front.
Qed.

(** An element that has to follow the head of the list goes past it. *)
Lemma sort_insert_skip x y l :
  ¬ not_after x y →
  JS.sort_insert compareFn x (y :: l) = y :: JS.sort_insert compareFn x l.
Proof. intros Hxy. simpl. by rewrite bool_decide_eq_false_2. Qed.
End array_sort_facts.

(** In a strongly sorted list an earlier position is related to a later one. *)
Lemma StronglySorted_lookup {A} (R : relation A) (l : list A) (i j : nat) a b :
  StronglySorted R l → (i < j)%nat → l !! i = Some a → l !! j = Some b → R a b.
Proof.
  intros Hs. revert i j. induction Hs as [|x l Hs IH Hx]; intros i j Hij Ha Hb.
  - by rewrite lookup_nil in Ha.
  - destruct j as [|j]; [lia|]. destruct i as [|i]; simpl in *.
    + injection Ha as <-. rewrite Forall_forall in Hx.
      eapply Hx, list_elem_of_lookup_2, Hb.
    + eapply IH; [|done..]. lia.
Qed.

(** ** The canonical comparator *)
Section comparator_facts.
Context {A : Type} `{Trace.TimeSpan A}.
Implicit Types a b c : A.

Abbreviation cmp := (@Trace.eventTimeComparator A _).
Abbreviation endTime := (@Trace.endTime A _).

Lemma comparator_before a b :
  cmp a b = -1 ↔
  Trace.ts a < Trace.ts b ∨ (Trace.ts a = Trace.ts b ∧ endTime b < endTime a).
Proof.
  unfold Trace.eventTimeComparator, Trace.endTime.
  repeat case_bool_decide; lia.
Qed.

Lemma comparator_after a b :
  cmp a b = 1 ↔
  Trace.ts b < Trace.ts a ∨ (Trace.ts a = Trace.ts b ∧ endTime a < endTime b).
Proof.
  unfold Trace.eventTimeComparator, Trace.endTime.
  repeat case_bool_decide; lia.
Qed.

Lemma comparator_equal a b :
  cmp a b = 0 ↔ Trace.ts a = Trace.ts b ∧ endTime a = endTime b.
Proof.
  unfold Trace.eventTimeComparator, Trace.endTime.
  repeat case_bool_decide; lia.
Qed.

Lemma comparator_range a b : cmp a b = -1 ∨ cmp a b = 0 ∨ cmp a b = 1.
Proof.
  unfold Trace.eventTimeComparator. repeat case_bool_decide; lia.
Qed.

Lemma comparator_not_after a b :
  JS.not_after cmp a b ↔
  Trace.ts a < Trace.ts b ∨ (Trace.ts a = Trace.ts b ∧ endTime b ≤ endTime a).
Proof.
  unfold JS.not_after.
  destruct (comparator_range a b) as [Hc|[Hc|Hc]]; rewrite Hc.
  - apply comparator_before in Hc. lia.
  - apply comparator_equal in Hc. lia.
  - apply comparator_after in Hc. lia.
Qed.

Lemma comparator_total a b : JS.not_after cmp a b ∨ JS.not_after cmp b a.
Proof. rewrite !comparator_not_after. lia. Qed.

Lemma comparator_trans a b c :
  JS.not_after cmp a b → JS.not_after cmp b c → JS.not_after cmp a c.
Proof. rewrite !comparator_not_after. lia. Qed.

#[local] Instance comparator_Total : Total (JS.not_after cmp).
Proof. intros a b. apply comparator_total. Qed.

#[local] Instance comparator_Transitive : Transitive (JS.not_after cmp).
Proof. intros a b c. apply comparator_trans. Qed.

Lemma comparator_after_not a b : cmp a b = 1 ↔ ¬ JS.not_after cmp a b.
Proof.
  unfold JS.not_after.
  destruct (comparator_range a b) as [Hc|[Hc|Hc]]; rewrite Hc; lia.
Qed.

(** ** Sorting in place *)

(** C3. [sortTraceEventsInPlace] keeps the events of the collection and
    leaves them ordered by start time ascending and, at equal start times,
    by end time descending, where an absent duration counts as 0: of two
    positions the earlier one holds the event that starts first or, at equal
    starts, ends last.  The comparator is 0 exactly on events with equal
    start and equal end, negative exactly when the first event starts
    earlier or ends later at the same start, and positive in the mirror
    case. *)
Theorem sortTraceEventsInPlace_order (events : list A) :
  Trace.sortTraceEventsInPlace events ≡ₚ events ∧
  (∀ (i j : nat) a b,
    (i < j)%nat →
    Trace.sortTraceEventsInPlace events !! i = Some a →
    Trace.sortTraceEventsInPlace events !! j = Some b →
    Trace.ts a < Trace.ts b ∨
    (Trace.ts a = Trace.ts b ∧
     Trace.ts b + default 0 (Trace.dur b)
       ≤ Trace.ts a + default 0 (Trace.dur a))) ∧
  (∀ a b,
    (cmp a b = 0 ↔
      Trace.ts a = Trace.ts b ∧
      Trace.ts a + default 0 (Trace.dur a)
        = Trace.ts b + default 0 (Trace.dur b)) ∧
    (cmp a b = -1 ↔
      Trace.ts a < Trace.ts b ∨
      (Trace.ts a = Trace.ts b ∧
       Trace.ts b + default 0 (Trace.dur b)
         < Trace.ts a + default 0 (Trace.dur a))) ∧
    (cmp a b = 1 ↔
      Trace.ts b < Trace.ts a ∨
      (Trace.ts a = Trace.ts b ∧
       Trace.ts a + default 0 (Trace.dur a)
         < Trace.ts b + default 0 (Trace.dur b)))).
Proof.
  split; [apply Array_sort_perm|]. split.
  - intros i j a b Hij Ha Hb.
    pose proof (Array_sort_sorted cmp comparator_total events) as Hs.
    apply Sorted_StronglySorted in Hs; [|apply _].
    fold (Trace.sortTraceEventsInPlace events) in Hs.
    revert Hs Ha Hb.
    generalize (Trace.sortTraceEventsInPlace events). intros l Hs Ha Hb.
    apply (comparator_not_after a b).
    eapply StronglySorted_lookup; eauto.
  - intros a b. split; [apply comparator_equal|].
    split; [apply comparator_before|apply comparator_after].
Qed.
End comparator_facts.

Section sort_merge_facts.
Context {A : Type} `{Trace.TimeSpan A}.
Implicit Types a b : list A.

Abbreviation cmp := (@Trace.eventTimeComparator A _).
Abbreviation precedes := (JS.not_after (@Trace.eventTimeComparator A _)).

#[local] Instance precedes_Total : Total precedes.
Proof. intros x y. apply comparator_total. Qed.

#[local] Instance precedes_Transitive : Transitive precedes.
Proof. intros x y z. apply comparator_trans. Qed.

(** C4. Sorting a collection that already obeys the canonical comparator
    gives back the same sequence. *)
Theorem sortTraceEventsInPlace_idempotent (events : list A) :
  Trace.sortedEvents events →
  Trace.sortTraceEventsInPlace events = events.
Proof.
  unfold Trace.sortedEvents, Trace.sortTraceEventsInPlace. intros Hsorted.
  by apply Array_sort_fixpoint.
Qed.

(** ** The ordered merge *)

Lemma push_rest_unfold (fuel k : nat) (arr res : list A) :
  Trace.push_rest fuel arr k res =
  match arr !! k with
  | Some e =>
      match fuel with
      | O => None
      | S fuel' => Trace.push_rest fuel' arr (S k) (res ++ [e])
      end
  | None => Some (k, res)
  end.
Proof. by destruct fuel. Qed.

(** The trailing loops copy what is left of an array. *)
Lemma push_rest_drop (fuel k : nat) (arr res : list A) :
  (length arr - k ≤ fuel)%nat →
  ∃ k', Trace.push_rest fuel arr k res = Some (k', res ++ drop k arr).
Proof.
  revert k res. induction fuel as [|fuel IH]; intros k res Hfuel;
    rewrite push_rest_unfold; destruct (arr !! k) as [e|] eqn:Hk.
  - apply lookup_lt_Some in Hk. lia.
  - apply lookup_ge_None in Hk. rewrite drop_ge by lia.
    eexists. by rewrite app_nil_r.
  - destruct (IH (S k) (res ++ [e])) as [k' Hk'].
    { apply lookup_lt_Some in Hk. lia. }
    exists k'. rewrite Hk', (drop_S _ _ _ Hk). by rewrite <- app_assoc.
  - apply lookup_ge_None in Hk. rewrite drop_ge by lia.
    eexists. by rewrite app_nil_r.
Qed.

(** One turn of the first loop pushes the event of the first array unless
    the comparator is 1, and the event of the second array otherwise. *)
Lemma merge_loop_unfold (fuel : nat) a b (s : Trace.MergeState) :
  Trace.merge_loop fuel a b s =
  match a !! Trace.i s, b !! Trace.j s with
  | Some e1, Some e2 =>
      match fuel with
      | O => None
      | S fuel' =>
          Trace.merge_loop fuel' a b
            (if decide (precedes e1 e2)
             then Trace.mkMerge (S (Trace.i s)) (Trace.j s)
                    (Trace.result s ++ [e1])
             else Trace.mkMerge (Trace.i s) (S (Trace.j s))
                    (Trace.result s ++ [e2]))
      end
  | _, _ => Some s
  end.
Proof.
  destruct fuel; [done|]. simpl.
  destruct (a !! Trace.i s) as [e1|]; [|done].
  destruct (b !! Trace.j s) as [e2|]; [|done].
  destruct (decide (precedes e1 e2)) as [Hle|Hgt].
  - rewrite (bool_decide_eq_true_2 _ Hle).
    rewrite bool_decide_eq_false_2; [done|].
    unfold JS.not_after in Hle. lia.
  - rewrite (bool_decide_eq_false_2 _ Hgt).
    apply comparator_after_not in Hgt.
    by rewrite bool_decide_eq_true_2.
Qed.

(** The first loop is the merge of the two lists by structural recursion:
    it stops with one of the arrays used up, and what it has pushed followed
    by what is left of the two arrays is the merge of what the cursors had
    in front of them. *)
Lemma merge_loop_list_merge (fuel : nat) a b (i j : nat) (res : list A) :
  (length a - i + (length b - j) ≤ fuel)%nat →
  ∃ s, Trace.merge_loop fuel a b (Trace.mkMerge i j res) = Some s ∧
       (drop (Trace.i s) a = [] ∨ drop (Trace.j s) b = []) ∧
       Trace.result s ++ drop (Trace.i s) a ++ drop (Trace.j s) b
         = res ++ list_merge precedes (drop i a) (drop j b).
Proof.
  revert i j res. induction fuel as [|fuel IH]; intros i j res Hfuel;
    rewrite merge_loop_unfold; cbn [Trace.i Trace.j Trace.result];
    destruct (a !! i) as [e1|] eqn:Hi.
  1,3: destruct (b !! j) as [e2|] eqn:Hj.
  - apply lookup_lt_Some in Hi, Hj. lia.
  - exists (Trace.mkMerge i j res). split; [done|].
    apply lookup_ge_None in Hj. simpl. rewrite !(drop_ge b) by lia.
    split; [by right|]. by rewrite list_merge_nil_r, app_nil_r.
  - pose proof (lookup_lt_Some _ _ _ Hi). pose proof (lookup_lt_Some _ _ _ Hj).
    rewrite (drop_S _ _ _ Hi), (drop_S _ _ _ Hj), list_merge_cons.
    destruct (decide (precedes e1 e2)).
    + destruct (IH (S i) j (res ++ [e1])) as (s & Hs & Hend & Hres); [lia|].
      exists s. split; [done|]. split; [done|].
      rewrite Hres, (drop_S _ _ _ Hj). by rewrite <- app_assoc.
    + destruct (IH i (S j) (res ++ [e2])) as (s & Hs & Hend & Hres); [lia|].
      exists s. split; [done|]. split; [done|].
      rewrite Hres, (drop_S _ _ _ Hi). by rewrite <- app_assoc.
  - exists (Trace.mkMerge i j res). split; [done|].
    apply lookup_ge_None in Hj. simpl. rewrite !(drop_ge b) by lia.
    split; [by right|]. by rewrite list_merge_nil_r, app_nil_r.
  - exists (Trace.mkMerge i j res). split; [done|].
    apply lookup_ge_None in Hi. simpl. rewrite !(drop_ge a) by lia.
    split; [by left|]. by rewrite list_merge_nil_l.
  - exists (Trace.mkMerge i j res). split; [done|].
    apply lookup_ge_None in Hi. simpl. rewrite !(drop_ge a) by lia.
    split; [by left|]. by rewrite list_merge_nil_l.
Qed.

Lemma mergeEventsInOrder_list_merge a b :
  Trace.mergeEventsInOrder a b = Some (list_merge precedes a b).
Proof.
  unfold Trace.mergeEventsInOrder, Trace.mergeEventsInOrder_fuel.
  destruct (merge_loop_list_merge (length a + length b) a b 0 0 [])
    as (s & -> & Hend & Hres); [lia|].
  simpl in *.
  destruct (push_rest_drop (length a + length b) (Trace.i s) a (Trace.result s))
    as [k1 ->]; [lia|]. simpl.
  destruct (push_rest_drop (length a + length b) (Trace.j s) b
              (Trace.result s ++ drop (Trace.i s) a)) as [k2 ->]; [lia|].
  simpl. by rewrite <- app_assoc, Hres.
Qed.

(** An event of the second list that has to go in front of a lower bound of
    the first list is emitted first. *)
Lemma list_merge_emit_second x y a b :
  ¬ precedes x y → HdRel precedes x a →
  list_merge precedes a (y :: b) = y :: list_merge precedes a b.
Proof.
  intros Hxy Ha. destruct Ha as [|x' a Hx'].
  - by rewrite !list_merge_nil_l.
  - rewrite list_merge_cons. case_decide as Hx'y; [|done].
    destruct Hxy. by etrans.
Qed.

Lemma sort_insert_list_merge x a b :
  HdRel precedes x a → Sorted precedes b →
  JS.sort_insert cmp x (list_merge precedes a b)
    = list_merge precedes (x :: a) b.
Proof.
  intros Ha Hb. induction Hb as [|y b Hb IH Hy].
  - rewrite !list_merge_nil_r. by apply sort_insert_front.
  - rewrite list_merge_cons. case_decide as Hxy.
    + apply sort_insert_front, HdRel_list_merge; [done|by constructor].
    + rewrite (list_merge_emit_second x y) by done.
      rewrite sort_insert_skip by done. by rewrite IH.
Qed.

(** The merge of two sorted lists is the stable sort of their
    concatenation. *)
Lemma list_merge_Array_sort a b :
  Sorted precedes a → Sorted precedes b →
  JS.Array_sort cmp (a ++ b) = list_merge precedes a b.
Proof.
  intros Ha Hb. induction Ha as [|x a Ha IH Hx]; simpl.
  - rewrite list_merge_nil_l. by apply Array_sort_fixpoint.
  - rewrite IH. by apply sort_insert_list_merge.
Qed.

(** An event of the first list comes out in front of every event of the
    second list that it does not have to follow. *)
Lemma list_merge_left_first x y a b :
  StronglySorted precedes a → x ∈ a → y ∈ b → precedes x y →
  ∃ l1 l2 l3, list_merge precedes a b = l1 ++ x :: l2 ++ y :: l3.
Proof.
  intros Ha. revert b. induction Ha as [|x' a Ha IHa Hx']; intros b Hx Hy Hxy.
  { by apply elem_of_nil in Hx. }
  assert (Hx'y : precedes x' y).
  { apply elem_of_cons in Hx as [->|Hx]; [done|].
    rewrite Forall_forall in Hx'. etrans; [by apply Hx'|done]. }
  induction b as [|y' b IHb]; [by apply elem_of_nil in Hy|].
  rewrite list_merge_cons. case_decide as Hx'y'.
  - apply elem_of_cons in Hx as [->|Hx].
    + assert (Hin : y ∈ list_merge precedes a (y' :: b)).
      { rewrite merge_Permutation. apply elem_of_app. by right. }
      apply list_elem_of_split in Hin as (l2 & l3 & ->).
      by exists [], l2, l3.
    + destruct (IHa (y' :: b) Hx Hy Hxy) as (l1 & l2 & l3 & ->).
      by exists (x' :: l1), l2, l3.
  - apply elem_of_cons in Hy as [->|Hy]; [done|].
    destruct (IHb Hy) as (l1 & l2 & l3 & ->).
    by exists (y' :: l1), l2, l3.
Qed.

(** C2. For two inputs that obey the canonical comparator,
    [mergeEventsInOrder] returns a list that is a permutation of the
    concatenation of the inputs, obeys the comparator, places every event
    of the first input in front of every event of the second input that it
    does not have to follow (comparator at most 0), and is the stable sort
    of the concatenation. *)
Theorem mergeEventsInOrder_sorted_stable a b :
  Trace.sortedEvents a → Trace.sortedEvents b →
  ∃ r, Trace.mergeEventsInOrder a b = Some r ∧
       r ≡ₚ a ++ b ∧
       Trace.sortedEvents r ∧
       (∀ x y, x ∈ a → y ∈ b → Trace.eventTimeComparator x y ≤ 0 →
          ∃ l1 l2 l3, r = l1 ++ x :: l2 ++ y :: l3) ∧
       r = JS.Array_sort Trace.eventTimeComparator (a ++ b).
Proof.
  unfold Trace.sortedEvents. intros Ha Hb. exists (list_merge precedes a b).
  split; [apply mergeEventsInOrder_list_merge|].
  split; [apply merge_Permutation|].
  split; [apply Sorted_list_merge; [apply _|done..]|].
  split.
  - intros x y Hx Hy Hxy. apply list_merge_left_first; try done.
    apply Sorted_StronglySorted; [apply _|done].
  - symmetry. by apply list_merge_Array_sort.
Qed.
End sort_merge_facts.


(** * Async pairing *)

(** ** Maps in insertion order *)
Section map_facts.
Context {K V : Type} `{EqDecision K}.
Implicit Types (m : list (K * V)) (k : K) (v : V).

Lemma Map_get_None m k : JS.Map_get m k = None ↔ k ∉ m.*1.
Proof.
  induction m as [|[k' v'] m IH].
  { split; [intros _; apply not_elem_of_nil|done]. }
  cbn [JS.Map_get]. rewrite fmap_cons, not_elem_of_cons. cbn [fst].
  case_decide as Hk.
  - split; [done|]. by intros [? _].
  - rewrite IH. split; [done|]. by intros [_ ?].
Qed.

Lemma Map_get_set m k v k' :
  JS.Map_get (JS.Map_set m k v) k' =
  if decide (k' = k) then Some v else JS.Map_get m k'.
Proof.
  induction m as [|[k0 v0] m IH]; simpl.
  - by case_decide.
  - destruct (decide (k = k0)) as [->|Hk]; simpl.
    + repeat case_decide; congruence.
    + rewrite IH. repeat case_decide; congruence.
Qed.

Lemma Map_set_keys m k v :
  (JS.Map_set m k v).*1 = if decide (k ∈ m.*1) then m.*1 else m.*1 ++ [k].
Proof.
  induction m as [|[k0 v0] m IH]; [done|].
  cbn [JS.Map_set]. rewrite fmap_cons. cbn [fst].
  destruct (decide (k = k0)) as [->|Hk].
  - rewrite decide_True by (apply elem_of_cons; by left). done.
  - rewrite fmap_cons, IH. cbn [fst]. case_decide as Hin.
    + rewrite decide_True; [done|]. apply elem_of_cons. by right.
    + rewrite decide_False; [done|]. rewrite elem_of_cons. intros [?|?]; done.
Qed.

Lemma Map_set_NoDup m k v : NoDup m.*1 → NoDup (JS.Map_set m k v).*1.
Proof.
  intros Hm. rewrite Map_set_keys. case_decide as Hin; [done|].
  apply NoDup_app. split; [done|]. split; [|apply NoDup_singleton].
  intros x Hx Hx'. apply list_elem_of_singleton in Hx' as ->. done.
Qed.
End map_facts.

(** ** Matching begin and end events *)
Section pairing_facts.
Import Trace.
Implicit Types (event ev : Event.t) (events : list Event.t) (key : string).
Implicit Types (m : list (string * EventsPair.t)).

Lemma match_step_no_id m event : keyOf event = None → match_step m event = m.
Proof.
  unfold keyOf, match_step. by destruct (extractId event).
Qed.

Lemma match_step_get m event key k :
  keyOf event = Some key →
  JS.Map_get (match_step m event) k =
  if decide (k = key)
  then Some (slotUpdate event
               (default (EventsPair.mk None None) (JS.Map_get m key)))
  else JS.Map_get m k.
Proof.
  unfold keyOf, match_step, getWithDefault, slotUpdate.
  destruct (extractId event) as [id|]; [|done]. simpl. intros [= <-].
  destruct (JS.Map_get m (syntheticIdOf event id)) as [p|] eqn:Hget; simpl.
  - repeat case_bool_decide; rewrite ?Map_get_set;
      case_decide; subst; done.
  - repeat case_bool_decide; rewrite ?Map_get_set;
      case_decide; subst; rewrite ?Map_get_set, ?decide_True by done;
      try done; by case_decide.
Qed.

Lemma match_step_NoDup m event : NoDup m.*1 → NoDup (match_step m event).*1.
Proof.
  intros Hm. unfold match_step, getWithDefault.
  destruct (extractId event) as [id|]; [|done].
  destruct (JS.Map_get m (syntheticIdOf event id)) as [p|];
    repeat case_bool_decide; eauto using Map_set_NoDup.
Qed.

Lemma matchBeginningAndEndEvents_snoc events event :
  matchBeginningAndEndEvents (events ++ [event])
    = match_step (matchBeginningAndEndEvents events) event.
Proof. unfold matchBeginningAndEndEvents. by rewrite foldl_app. Qed.

Lemma matchBeginningAndEndEvents_NoDup events :
  NoDup (matchBeginningAndEndEvents events).*1.
Proof.
  induction events as [|event events IH] using rev_ind.
  - constructor.
  - rewrite matchBeginningAndEndEvents_snoc. by apply match_step_NoDup.
Qed.

Lemma last_filter_snoc {X} (P : X → Prop) `{∀ x, Decision (P x)}
    (l : list X) (x : X) :
  last (filter P (l ++ [x]))
    = if decide (P x) then Some x else last (filter P l).
Proof.
  rewrite filter_app, filter_cons, filter_nil.
  case_decide; [apply last_snoc|by rewrite app_nil_r].
Qed.

Lemma filter_none {X} (P : X → Prop) `{∀ x, Decision (P x)} (l : list X) :
  (∀ x, x ∈ l → ¬ P x) → filter P l = [].
Proof.
  induction l as [|x l IH]; intros Hl; [done|].
  rewrite filter_cons, decide_False by (apply Hl; by left).
  apply IH. intros y Hy. apply Hl. by right.
Qed.

Lemma slotsOf_default events key :
  default (EventsPair.mk None None) (slotsOf key events)
    = EventsPair.mk (last (beginsOf key events)) (last (endsOf key events)).
Proof.
  unfold slotsOf. case_decide as Hex; [done|]. simpl.
  assert (Hnone : ∀ ph, filter (λ ev, keyOf ev = Some key ∧ Event.ph ev = ph)
                          events = []).
  { intros ph. apply filter_none. intros ev Hev [Hk _].
    apply Hex, Exists_exists. eauto. }
  unfold beginsOf, endsOf. by rewrite !Hnone.
Qed.

Lemma slotsOf_snoc events event key :
  slotsOf key (events ++ [event]) =
  if decide (keyOf event = Some key)
  then Some (slotUpdate event
               (default (EventsPair.mk None None) (slotsOf key events)))
  else slotsOf key events.
Proof.
  rewrite slotsOf_default. unfold slotsOf at 1, beginsOf, endsOf.
  rewrite !last_filter_snoc.
  destruct (decide (keyOf event = Some key)) as [Hk|Hk].
  - rewrite decide_True by (apply Exists_app; right; by constructor).
    f_equal. unfold slotUpdate, beginsOf, endsOf. simpl.
    case_bool_decide as Hb.
    + rewrite decide_True by done. rewrite decide_False; [done|].
      intros [_ He]. by rewrite Hb in He.
    + rewrite decide_False by (by intros [_ ?]).
      case_bool_decide as He.
      * by rewrite decide_True.
      * by rewrite decide_False by (by intros [_ ?]).
  - rewrite (decide_False (P := _ ∧ _ = ASYNC_NESTABLE_START))
      by (by intros [? _]).
    rewrite (decide_False (P := _ ∧ _ = ASYNC_NESTABLE_END))
      by (by intros [? _]).
    unfold slotsOf, beginsOf, endsOf.
    destruct (decide (Exists (λ ev, keyOf ev = Some key) events)) as [Hex|Hex].
    + rewrite decide_True; [done|]. apply Exists_app. by left.
    + rewrite decide_False; [done|]. rewrite Exists_app.
      intros [?|Hex']; [done|]. apply Exists_cons in Hex' as [?|Hex'];
        [done|by apply Exists_nil in Hex'].
Qed.

Lemma matchBeginningAndEndEvents_get events key :
  JS.Map_get (matchBeginningAndEndEvents events) key = slotsOf key events.
Proof.
  revert key. induction events as [|event events IH] using rev_ind;
    intros key; [done|].
  rewrite matchBeginningAndEndEvents_snoc, slotsOf_snoc.
  destruct (keyOf event) as [k|] eqn:Hkey.
  - rewrite (match_step_get _ _ k) by done. rewrite !IH.
    destruct (decide (key = k)) as [->|Hne].
    + by rewrite !decide_True by done.
    + rewrite !decide_False; [done|congruence].
  - rewrite match_step_no_id by done. by rewrite decide_False.
Qed.

(** ** From the map to the synthetic events *)

Lemma synthetic_loop_omap m (acc : list Synthetic.t) :
  foldl synthetic_step acc m = acc ++ omap pairOfEntry m.
Proof.
  revert acc. induction m as [|[k p] m IH]; intros acc; simpl.
  - by rewrite app_nil_r.
  - rewrite IH. unfold pairOfEntry, pairEvent. simpl.
    destruct (EventsPair.begin p) as [b|]; [|done].
    destruct (EventsPair.end_ p) as [e|]; [|done]. simpl.
    case_bool_decide; [done|]. by rewrite <- app_assoc.
Qed.

Lemma pairEvent_id key ob oe s :
  pairEvent key ob oe = Some s → Synthetic.id s = key.
Proof.
  unfold pairEvent. destruct ob, oe; try done.
  case_bool_decide; [done|]. by intros [= <-].
Qed.

Lemma omap_pairs_of_key m key :
  NoDup m.*1 →
  filter (λ s, Synthetic.id s = key) (omap pairOfEntry m)
    = option_list (JS.Map_get m key ≫= λ p,
        pairEvent key (EventsPair.begin p) (EventsPair.end_ p)).
Proof.
  induction m as [|[k p] m IH]; [done|].
  rewrite fmap_cons. cbn [fst]. intros [Hk Hm]%NoDup_cons.
  cbn [omap list_omap JS.Map_get]. unfold pairOfEntry at 1. cbn [fst snd].
  destruct (decide (key = k)) as [->|Hne].
  - apply Map_get_None in Hk. rewrite Hk in IH. cbn in IH.
    cbn [mbind option_bind].
    destruct (pairEvent k _ _) as [s|] eqn:Hs; cbn [option_list].
    + rewrite filter_cons, decide_True by (by eapply pairEvent_id).
      by rewrite IH.
    + by apply IH.
  - destruct (pairEvent k _ _) as [s|] eqn:Hs; [|by apply IH].
    rewrite filter_cons, decide_False; [by apply IH|].
    apply pairEvent_id in Hs. congruence.
Qed.

Lemma slotsOf_pairEvent key events :
  (slotsOf key events ≫= λ p,
     pairEvent key (EventsPair.begin p) (EventsPair.end_ p))
  = pairEvent key (last (beginsOf key events)) (last (endsOf key events)).
Proof.
  pose proof (slotsOf_default events key) as Hd.
  destruct (slotsOf key events) as [p|]; simpl in *.
  - by rewrite Hd.
  - by injection Hd as <- <-.
Qed.

(** What the pairing gives out for a key is decided by the last begin and
    the last end of the key. *)
Lemma emittedFor_last key events :
  emittedFor key events
    = option_list
        (pairEvent key (last (beginsOf key events))
           (last (endsOf key events))).
Proof.
  unfold emittedFor, createMatchedSortedSyntheticEvents,
    createSortedSyntheticEvents.
  rewrite synthetic_loop_omap, app_nil_l.
  rewrite <- slotsOf_pairEvent, <- matchBeginningAndEndEvents_get.
  rewrite <- omap_pairs_of_key by apply matchBeginningAndEndEvents_NoDup.
  set (l := omap _ _).
  assert (Hperm : filter (λ s, Synthetic.id s = key)
                    (JS.Array_sort (λ a b, Synthetic.ts a - Synthetic.ts b) l)
                  ≡ₚ filter (λ s, Synthetic.id s = key) l).
  { by rewrite Array_sort_perm. }
  subst l. rewrite omap_pairs_of_key in Hperm |- *
    by apply matchBeginningAndEndEvents_NoDup.
  destruct (_ ≫= _) as [s|]; simpl in *.
  - by apply Permutation_singleton_r.
  - by apply Permutation_nil_r.
Qed.

Lemma createMatched_elem s events :
  s ∈ createMatchedSortedSyntheticEvents events →
  pairEvent (Synthetic.id s) (last (beginsOf (Synthetic.id s) events))
    (last (endsOf (Synthetic.id s) events)) = Some s.
Proof.
  intros Hs.
  assert (Hin : s ∈ emittedFor (Synthetic.id s) events).
  { apply list_elem_of_filter. by split. }
  rewrite emittedFor_last in Hin.
  destruct (pairEvent _ _ _) as [s'|]; simpl in Hin.
  - by apply list_elem_of_singleton in Hin as ->.
  - by apply elem_of_nil in Hin.
Qed.

Lemma pairEvent_Some key ob oe s :
  pairEvent key ob oe = Some s →
  ∃ b e, ob = Some b ∧ oe = Some e ∧ Event.ts b ≤ Event.ts e ∧
         s = makeSynthetic key b e.
Proof.
  unfold pairEvent. destruct ob as [b|], oe as [e|]; try done.
  case_bool_decide; [done|]. intros [= <-]. exists b, e.
  repeat split; try done. lia.
Qed.

(** When all the events of the input have the same key, all that the
    pairing gives out is what it gives out for this key. *)
Lemma createMatched_single_key key events :
  Forall (λ ev, keyOf ev = Some key) events →
  createMatchedSortedSyntheticEvents events = emittedFor key events.
Proof.
  intros Hall. unfold emittedFor. symmetry.
  set (out := createMatchedSortedSyntheticEvents events).
  assert (Hout : ∀ s, s ∈ out → Synthetic.id s = key).
  { intros s Hs%createMatched_elem.
    apply pairEvent_Some in Hs as (b & e & Hb & _).
    apply last_Some_elem_of, list_elem_of_filter in Hb as [[Hk _] Hb].
    rewrite Forall_forall in Hall. apply Hall in Hb. congruence. }
  clearbody out. induction out as [|s out IH]; [done|].
  rewrite filter_cons, decide_True by (apply Hout; by left).
  f_equal. apply IH. intros s' Hs'. apply Hout. by right.
Qed.

Lemma matchBeginningAndEndEvents_skip l1 ev l2 :
  keyOf ev = None →
  matchBeginningAndEndEvents (l1 ++ ev :: l2)
    = matchBeginningAndEndEvents (l1 ++ l2).
Proof.
  intros Hk. unfold matchBeginningAndEndEvents.
  rewrite !foldl_app. simpl. by rewrite match_step_no_id.
Qed.

(** The whole output is the output for the key when the input holds the two
    events only. *)
Ltac single_key Hall :=
  rewrite (createMatched_single_key _)
    by (apply Hall; repeat constructor; auto).

(** C5. Let a begin event and an end event share category, name and
    identifier.  When the end is not before the begin, the pairing of the
    two events, in either order, is one synthetic event that starts at the
    begin and lasts until the end, and so is what the pairing gives out for
    their key from any input in which they are the only begin and the only
    end of the key.  When the end is strictly before the begin, the pairing
    gives out nothing for the key.  A key with no begin or no end gives
    nothing either.  The pairing is a total function: it answers with a
    list in every case. *)
Theorem pairing_begin_end (b e : Event.t) (id key : string) :
  Event.ph b = ASYNC_NESTABLE_START →
  Event.ph e = ASYNC_NESTABLE_END →
  Event.cat b = Event.cat e →
  Event.name b = Event.name e →
  extractId b = Some id →
  extractId e = Some id →
  key = Event.cat b +:+ ":" +:+ id +:+ ":" +:+ Event.name b →
  (Event.ts b ≤ Event.ts e →
     ∃ s, Synthetic.ts s = Event.ts b ∧
          Synthetic.dur s = Event.ts e - Event.ts b ∧
          createMatchedSortedSyntheticEvents [b; e] = [s] ∧
          createMatchedSortedSyntheticEvents [e; b] = [s] ∧
          ∀ events, beginsOf key events = [b] → endsOf key events = [e] →
                    emittedFor key events = [s]) ∧
  (Event.ts e < Event.ts b →
     createMatchedSortedSyntheticEvents [b; e] = [] ∧
     createMatchedSortedSyntheticEvents [e; b] = [] ∧
     ∀ events, beginsOf key events = [b] → endsOf key events = [e] →
               emittedFor key events = []) ∧
  createMatchedSortedSyntheticEvents [b] = [] ∧
  createMatchedSortedSyntheticEvents [e] = [] ∧
  (∀ events key',
     beginsOf key' events = [] ∨ endsOf key' events = [] →
     emittedFor key' events = []).
Proof.
  intros Hpb Hpe Hcat Hname Hidb Hide Hkey.
  assert (Hkb : keyOf b = Some key).
  { unfold keyOf. rewrite Hidb. simpl. by subst key. }
  assert (Hke : keyOf e = Some key).
  { unfold keyOf, syntheticIdOf. rewrite Hide, <- Hcat, <- Hname. simpl.
    by subst key. }
  assert (Hbe : beginsOf key [b; e] = [b] ∧ endsOf key [b; e] = [e] ∧
                beginsOf key [e; b] = [b] ∧ endsOf key [e; b] = [e] ∧
                beginsOf key [e] = [] ∧ endsOf key [b] = []).
  { unfold beginsOf, endsOf. rewrite !filter_cons, !filter_nil.
    rewrite !(decide_True
                (P := keyOf b = _ ∧ Event.ph b = ASYNC_NESTABLE_START)) by done.
    rewrite !(decide_True
                (P := keyOf e = _ ∧ Event.ph e = ASYNC_NESTABLE_END)) by done.
    rewrite !(decide_False
                (P := keyOf b = _ ∧ Event.ph b = ASYNC_NESTABLE_END))
      by (intros [_ ?]; congruence).
    rewrite !(decide_False
                (P := keyOf e = _ ∧ Event.ph e = ASYNC_NESTABLE_START))
      by (intros [_ ?]; congruence).
    done. }
  destruct Hbe as (Hb1 & He1 & Hb2 & He2 & Hb3 & He3).
  assert (Hall : ∀ l, Forall (λ ev, ev = b ∨ ev = e) l →
            Forall (λ ev, keyOf ev = Some key) l).
  { intros l Hl. eapply Forall_impl; [exact Hl|]. by intros ev [-> | ->]. }
  assert (Hnone : ∀ events key',
    beginsOf key' events = [] ∨ endsOf key' events = [] →
    emittedFor key' events = []).
  { intros events key' Hempty. rewrite emittedFor_last.
    destruct Hempty as [-> | ->]; simpl; [done|].
    by destruct (last _). }
  repeat split.
  - intros Hle. exists (makeSynthetic key b e).
    assert (Hone : ∀ events, beginsOf key events = [b] →
              endsOf key events = [e] →
              emittedFor key events = [makeSynthetic key b e]).
    { intros events Hb He. rewrite emittedFor_last, Hb, He. simpl.
      rewrite bool_decide_eq_false_2 by lia. done. }
    split; [done|]. split; [done|].
    split; [|split; [|done]].
    + single_key Hall.
      by apply Hone.
    + single_key Hall.
      by apply Hone.
  - single_key Hall.
    rewrite emittedFor_last, Hb1, He1. simpl.
    by rewrite bool_decide_eq_true_2 by lia.
  - single_key Hall.
    rewrite emittedFor_last, Hb2, He2. simpl.
    by rewrite bool_decide_eq_true_2 by lia.
  - intros events Hb He. rewrite emittedFor_last, Hb, He. simpl.
    by rewrite bool_decide_eq_true_2 by lia.
  - single_key Hall.
    apply Hnone. by right.
  - single_key Hall.
    apply Hnone. by left.
  - apply Hnone.
Qed.

(** C6. The identifier of an event is its field [id], or else the field
    [global] of its [id2], or else the field [local] of its [id2]; an event
    has no identifier exactly when it has none of the three.  The key of an
    event is its category, its identifier and its name with colons in
    between, and an event without an identifier has no key.
    After the loop over the input the map has one record per key, and the
    record of a key holds the last begin event and the last end event
    of the key in the input: a later event of a phase has overwritten the
    earlier ones.  What the pairing gives out for a key is built from these
    two events, every synthetic event that it gives out refers to the last
    begin and the last end of its key, and an event that has none of the
    three id fields can be left out of the input without any change to the
    map or to the output. *)
Theorem matching_last_write_wins (events : list Event.t) :
  (∀ ev, extractId ev = None ↔
     Event.id ev = None ∧
     ∀ i2, Event.id2 ev = Some i2 →
           Id2.global i2 = None ∧ Id2.local i2 = None) ∧
  (∀ ev v, extractId ev = Some v ↔
     Event.id ev = Some v ∨
     (Event.id ev = None ∧
      ∃ i2, Event.id2 ev = Some i2 ∧
            (Id2.global i2 = Some v ∨
             (Id2.global i2 = None ∧ Id2.local i2 = Some v)))) ∧
  (∀ ev id, extractId ev = Some id →
     keyOf ev = Some (Event.cat ev +:+ ":" +:+ id +:+ ":" +:+ Event.name ev)) ∧
  (∀ ev, extractId ev = None → keyOf ev = None) ∧
  NoDup (matchBeginningAndEndEvents events).*1 ∧
  (∀ key,
     JS.Map_get (matchBeginningAndEndEvents events) key =
     if decide (Exists (λ ev, keyOf ev = Some key) events)
     then Some (EventsPair.mk (last (beginsOf key events))
                  (last (endsOf key events)))
     else None) ∧
  (∀ key,
     emittedFor key events =
     match last (beginsOf key events), last (endsOf key events) with
     | Some b, Some e =>
         if bool_decide (Event.ts e - Event.ts b < 0) then []
         else [makeSynthetic key b e]
     | _, _ => []
     end) ∧
  (∀ s, s ∈ createMatchedSortedSyntheticEvents events →
     last (beginsOf (Synthetic.id s) events)
       = Some (ArgsData.beginEvent (Args.data (Synthetic.args s))) ∧
     last (endsOf (Synthetic.id s) events)
       = Some (ArgsData.endEvent (Args.data (Synthetic.args s)))) ∧
  (∀ l1 ev l2,
     events = l1 ++ ev :: l2 → extractId ev = None →
     matchBeginningAndEndEvents events = matchBeginningAndEndEvents (l1 ++ l2)
     ∧ createMatchedSortedSyntheticEvents events
         = createMatchedSortedSyntheticEvents (l1 ++ l2)) ∧
  (∀ l1 ev l2,
     events = l1 ++ ev :: l2 →
     Event.id ev = None →
     (∀ i2, Event.id2 ev = Some i2 →
            Id2.global i2 = None ∧ Id2.local i2 = None) →
     matchBeginningAndEndEvents events = matchBeginningAndEndEvents (l1 ++ l2)
     ∧ createMatchedSortedSyntheticEvents events
         = createMatchedSortedSyntheticEvents (l1 ++ l2)).
Proof.
  assert (Hnone : ∀ ev, extractId ev = None ↔
     Event.id ev = None ∧
     ∀ i2, Event.id2 ev = Some i2 →
           Id2.global i2 = None ∧ Id2.local i2 = None).
  { intros ev. unfold extractId.
    destruct (Event.id ev) as [v|]; [split; [done|by intros [? _]]|].
    destruct (Event.id2 ev) as [[[g|] [l|]]|]; simpl.
    - split; [done|]. intros [_ H]. by destruct (H _ eq_refl).
    - split; [done|]. intros [_ H]. by destruct (H _ eq_refl).
    - split; [done|]. intros [_ H]. by destruct (H _ eq_refl).
    - split; [|done]. intros _. split; [done|]. by intros i2 [= <-].
    - split; [|done]. intros _. split; [done|]. by intros i2. }
  assert (Hskip : ∀ l1 ev l2,
     events = l1 ++ ev :: l2 → extractId ev = None →
     matchBeginningAndEndEvents events = matchBeginningAndEndEvents (l1 ++ l2)
     ∧ createMatchedSortedSyntheticEvents events
         = createMatchedSortedSyntheticEvents (l1 ++ l2)).
  { intros l1 ev l2 -> Hid.
    assert (Hskip : matchBeginningAndEndEvents (l1 ++ ev :: l2)
              = matchBeginningAndEndEvents (l1 ++ l2)).
    { apply matchBeginningAndEndEvents_skip. unfold keyOf. by rewrite Hid. }
    split; [done|].
    unfold createMatchedSortedSyntheticEvents. by rewrite Hskip. }
  split; [exact Hnone|].
  split.
  { intros ev v. unfold extractId.
    destruct (Event.id ev) as [w|].
    - split; [intros [= ->]; by left|].
      intros [?|[? _]]; [done|done].
    - destruct (Event.id2 ev) as [[[g|] [l|]]|]; simpl.
      + split.
        * intros [= ->]. right. split; [done|]. eexists. split; [done|].
          by left.
        * intros [?|(_ & i2 & [= <-] & [?|[? _]])]; done.
      + split.
        * intros [= ->]. right. split; [done|]. eexists. split; [done|].
          by left.
        * intros [?|(_ & i2 & [= <-] & [?|[? _]])]; done.
      + split.
        * intros [= ->]. right. split; [done|]. eexists. split; [done|].
          by right.
        * intros [?|(_ & i2 & [= <-] & [?|[_ ?]])]; done.
      + split; [done|].
        intros [?|(_ & i2 & [= <-] & [?|[_ ?]])]; done.
      + split; [done|]. intros [?|(_ & i2 & ? & _)]; done. }
  split; [by intros ev id Hid; unfold keyOf; rewrite Hid|].
  split; [by intros ev Hid; unfold keyOf; rewrite Hid|].
  split; [apply matchBeginningAndEndEvents_NoDup|].
  split; [apply matchBeginningAndEndEvents_get|].
  split; [|split].
  - intros key. rewrite emittedFor_last. unfold pairEvent.
    destruct (last (beginsOf key events)), (last (endsOf key events));
      try done.
    by case_bool_decide.
  - intros s Hs%createMatched_elem.
    apply pairEvent_Some in Hs as (b & e & -> & -> & _ & ->). done.
  - split; [exact Hskip|].
    intros l1 ev l2 Hev Hid Hid2. apply (Hskip l1 ev l2 Hev).
    by apply Hnone.
Qed.
End pairing_facts.

(** * The tree manipulator *)

(** ** The walk below a node *)
Section walk_facts.
Import TreeManipulator.
Context (tree : Tree.t).
Implicit Types (id c : N) (queue ids : list N) (n m d : Node.t).
Implicit Types (e : RendererEntry) (acc ancestors : list RendererEntry).

Lemma findAllAncestors_loop_unfold fuel queue ancestors :
  findAllAncestors_loop fuel tree queue ancestors =
  match queue with
  | [] => Some ancestors
  | id :: queue' =>
      match fuel with
      | O => None
      | S fuel' =>
          if bool_decide (id = 0%N) then Some ancestors
          else
            match Tree.nodes tree !! id with
            | Some childNode =>
                findAllAncestors_loop fuel' tree
                  (queue' ++ Node.childrenIds childNode)
                  (ancestors ++ [Node.entry childNode])
            | None => findAllAncestors_loop fuel' tree queue' ancestors
            end
      end
  end.
Proof. by destruct fuel. Qed.

(** The strict descendants of a node are the nodes of its child ids and
    their strict descendants. *)
Lemma descendants_children n e :
  (∃ d, descendantOf tree d n ∧ Node.entry d = e) ↔
  ∃ id, id ∈ Node.childrenIds n ∧ reachFrom tree id e.
Proof.
  split.
  - intros (d & Hd & He). unfold descendantOf in Hd.
    inversion Hd as [? ? (id & Hin & Hid)|? m ? (id & Hin & Hid) Hm]; subst.
    + exists id. split; [done|]. exists d. split; [done|]. by left.
    + exists id. split; [done|]. exists m. split; [done|]. right.
      by exists d.
  - intros (id & Hin & m & Hid & [He|(d & Hd & He)]).
    + exists m. split; [|done]. apply tc_once. by exists id.
    + exists d. split; [|done]. eapply tc_l; [|exact Hd]. by exists id.
Qed.

Lemma reachFrom_node id n e :
  Tree.nodes tree !! id = Some n →
  reachFrom tree id e ↔
  Node.entry n = e ∨ ∃ c, c ∈ Node.childrenIds n ∧ reachFrom tree c e.
Proof.
  intros Hid. unfold reachFrom at 1. rewrite <- descendants_children.
  split.
  - intros (n' & Hn' & H). by simplify_eq.
  - intros H. by exists n.
Qed.

Lemma reachFrom_missing id e :
  Tree.nodes tree !! id = None → ¬ reachFrom tree id e.
Proof. intros Hid (n & Hn & _). congruence. Qed.

(** What the walk has pushed when it returns is reached from the ids of the
    queue, whether the walk has gone through the whole queue or not. *)
Lemma findAllAncestors_loop_within fuel queue ancestors result :
  findAllAncestors_loop fuel tree queue ancestors = Some result →
  ∀ e, e ∈ result →
       e ∈ ancestors ∨ ∃ id, id ∈ queue ∧ reachFrom tree id e.
Proof.
  revert queue ancestors.
  induction fuel as [|fuel IH]; intros queue ancestors;
    rewrite findAllAncestors_loop_unfold;
    destruct queue as [|id queue]; try done.
  1,2: intros [= <-] e; by left.
  case_bool_decide; [intros [= <-] e; by left|].
  destruct (Tree.nodes tree !! id) as [n|] eqn:Hn.
  - intros Hres e He.
    destruct (IH _ _ Hres e He) as [Hacc|(c & Hc & Hr)].
    + apply elem_of_app in Hacc as [Hacc|Hacc]; [by left|].
      apply list_elem_of_singleton in Hacc as ->.
      right. exists id. split; [by left|].
      apply (reachFrom_node _ _ _ Hn). by left.
    + right. apply elem_of_app in Hc as [Hc|Hc].
      * exists c. split; [by right|done].
      * exists id. split; [by left|].
        apply (reachFrom_node _ _ _ Hn). right. by exists c.
  - intros Hres e He.
    destruct (IH _ _ Hres e He) as [Hacc|(c & Hc & Hr)]; [by left|].
    right. exists c. split; [by right|done].
Qed.

(** The guard [if (!id) break] ends the walk at the id 0, with the rest of
    the queue unread.  This is why the ids of a well-formed tree are asked to
    be truthy. *)
Remark findAllAncestors_loop_falsy_id fuel queue ancestors :
  findAllAncestors_loop (S fuel) tree (0%N :: queue) ancestors
    = Some ancestors.
Proof. done. Qed.

Hypothesis truthy :
  map_Forall (λ _ n, Forall (λ c, c ≠ 0%N) (Node.childrenIds n))
    (Tree.nodes tree).

(** When the walk returns, it has pushed the entries reached from the ids
    of the queue, and nothing else. *)
Lemma findAllAncestors_loop_sound fuel queue ancestors result :
  Forall (λ c, c ≠ 0%N) queue →
  findAllAncestors_loop fuel tree queue ancestors = Some result →
  ∀ e, e ∈ result ↔
       e ∈ ancestors ∨ ∃ id, id ∈ queue ∧ reachFrom tree id e.
Proof.
  revert queue ancestors.
  induction fuel as [|fuel IH]; intros queue ancestors Hq;
    rewrite findAllAncestors_loop_unfold;
    destruct queue as [|id queue]; try done.
  1,2: intros [= <-] e; split; [by left|];
       intros [?|(id & Hid & _)]; [done|by apply elem_of_nil in Hid].
  apply Forall_cons in Hq as [Hid Hq].
  rewrite bool_decide_eq_false_2 by done.
  destruct (Tree.nodes tree !! id) as [n|] eqn:Hn.
  - intros Hres e.
    assert (Hq' : Forall (λ c, c ≠ 0%N) (queue ++ Node.childrenIds n)).
    { apply Forall_app. split; [done|]. by apply (truthy id n). }
    rewrite (IH _ _ Hq' Hres).
    rewrite elem_of_app, list_elem_of_singleton.
    split.
    + intros [[He| ->]|(c & Hc & Hr)].
      * by left.
      * right. exists id. split; [by left|].
        apply (reachFrom_node _ _ _ Hn). by left.
      * right. apply elem_of_app in Hc as [Hc|Hc].
        -- exists c. split; [by right|done].
        -- exists id. split; [by left|].
           apply (reachFrom_node _ _ _ Hn). right. by exists c.
    + intros [He|(c & Hc & Hr)]; [by left; left|].
      apply elem_of_cons in Hc as [->|Hc].
      * apply (reachFrom_node _ _ _ Hn) in Hr as [Hr|(c & Hc & Hr)].
        -- left. by right.
        -- right. exists c. split; [|done]. apply elem_of_app. by right.
      * right. exists c. split; [|done]. apply elem_of_app. by left.
  - intros Hres e. rewrite (IH _ _ Hq Hres). split.
    + intros [He|(c & Hc & Hr)]; [by left|].
      right. exists c. split; [by right|done].
    + intros [He|(c & Hc & Hr)]; [by left|].
      apply elem_of_cons in Hc as [->|Hc].
      * by apply reachFrom_missing in Hr.
      * right. by exists c.
Qed.
End walk_facts.

Section walk_termination.
Import TreeManipulator.
Context (tree : Tree.t).
Implicit Types (id c : N) (queue ids : list N) (n : Node.t) (k : nat).

Lemma walkCost_app ids1 ids2 k1 k2 :
  walkCost tree ids1 k1 → walkCost tree ids2 k2 →
  walkCost tree (ids1 ++ ids2) (k1 + k2).
Proof.
  intros H1 H2.
  induction H1 as [|id ids k Hid _ IH|id n ids ka kb Hid Hn _ _ IH]; simpl.
  - done.
  - by apply walkCost_missing.
  - replace (S (ka + kb + k2)) with (S (ka + (kb + k2))) by lia.
    by eapply walkCost_node.
Qed.

(** A walk of a known size returns as soon as the fuel covers the size. *)
Lemma findAllAncestors_loop_terminates fuel queue k ancestors :
  walkCost tree queue k → (k ≤ fuel)%nat →
  is_Some (findAllAncestors_loop fuel tree queue ancestors).
Proof.
  revert queue k ancestors.
  induction fuel as [|fuel IH]; intros queue k ancestors Hcost Hk;
    rewrite findAllAncestors_loop_unfold;
    destruct queue as [|id queue]; try done.
  - inversion Hcost; subst; lia.
  - case_bool_decide; [done|].
    inversion Hcost as [|? ? k' Hid Hq|? n ? k1 k2 Hid Hn Hq]; subst;
      rewrite Hid.
    + apply (IH _ k'); [done|lia].
    + apply (IH _ (k2 + k1)%nat); [by apply walkCost_app|lia].
Qed.

Lemma walkCost_list ids :
  (∀ c, c ∈ ids → ∃ k, walkCost tree [c] k) → ∃ k, walkCost tree ids k.
Proof.
  induction ids as [|c ids IH]; intros Hall.
  - exists 0%nat. constructor.
  - destruct (Hall c) as [k1 Hk1]; [by left|].
    destruct IH as [k2 Hk2]; [intros c' Hc'; apply Hall; by right|].
    exists (k1 + k2)%nat. by apply (walkCost_app [c] ids).
Qed.

(** Without a cycle every walk has a size. *)
Lemma walkCost_acyclic (rank : N → nat) :
  map_Forall (λ id n,
    Forall (λ c, is_Some (Tree.nodes tree !! c) → (rank c < rank id)%nat)
      (Node.childrenIds n)) (Tree.nodes tree) →
  ∀ ids, ∃ k, walkCost tree ids k.
Proof.
  intros Hrank.
  assert (Hone : ∀ r id, (rank id < r)%nat → ∃ k, walkCost tree [id] k).
  { induction r as [|r IH]; intros id Hr; [lia|].
    destruct (Tree.nodes tree !! id) as [n|] eqn:Hn.
    - destruct (walkCost_list (Node.childrenIds n)) as [k1 Hk1].
      { intros c Hc. destruct (Tree.nodes tree !! c) as [m|] eqn:Hm.
        - apply IH. specialize (Hrank id n Hn). rewrite Forall_forall in Hrank.
          specialize (Hrank c Hc). rewrite Hm in Hrank.
          specialize (Hrank (mk_is_Some _ _ eq_refl)). lia.
        - exists 1%nat. apply walkCost_missing; [done|constructor]. }
      exists (S (k1 + 0)). eapply walkCost_node; [done|done|constructor].
    - exists 1%nat. apply walkCost_missing; [done|constructor]. }
  intros ids. apply walkCost_list. intros c _. apply (Hone (S (rank c))). lia.
Qed.
End walk_termination.

(** ** The methods of the manipulator *)
Section manipulator_facts.
Import TreeManipulator.
Implicit Types (this : t) (action a : Action.t) (e : RendererEntry).

Lemma actionIsActive_true this action :
  actionIsActive this action = true ↔
  ∃ a, a ∈ activeActions this ∧ Action.type a = Action.type action ∧
       Action.entry a = Action.entry action.
Proof.
  unfold actionIsActive. rewrite existsb_exists. split.
  - intros (a & Hin & Ha). apply andb_prop in Ha as [He Ht].
    apply bool_decide_eq_true_1 in He, Ht.
    exists a. by rewrite list_elem_of_In.
  - intros (a & Hin & Ht & He). exists a. rewrite <- list_elem_of_In.
    split; [done|]. by rewrite !bool_decide_eq_true_2.
Qed.

Lemma matchesAction_none this action :
  (∀ a, a ∈ activeActions this →
        ¬ (Action.type a = Action.type action ∧
           Action.entry a = Action.entry action)) →
  existsb (matchesAction action) (activeActions this) = false ∧
  List.filter (λ a, negb (matchesAction action a)) (activeActions this)
    = activeActions this.
Proof.
  induction (activeActions this) as [|a l IH]; intros Hno; [done|].
  assert (Ha : matchesAction action a = false).
  { unfold matchesAction. apply andb_false_iff.
    destruct (decide (Action.type a = Action.type action)) as [Ht|Ht].
    - right. apply bool_decide_eq_false_2. intros He.
      apply (Hno a); [by left|done].
    - left. by apply bool_decide_eq_false_2. }
  destruct IH as [IH1 IH2]; [intros a' Ha'; apply Hno; by right|].
  simpl. rewrite Ha, IH1, IH2. done.
Qed.

Lemma existsb_false_filter this action :
  existsb (matchesAction action) (activeActions this) = false →
  List.filter (λ a, negb (matchesAction action a)) (activeActions this)
    = activeActions this.
Proof.
  intros Hex. apply matchesAction_none. intros a Ha [Ht He].
  assert (existsb (matchesAction action) (activeActions this) = true)
    as Hyes; [|congruence].
  apply existsb_exists. exists a. rewrite <- list_elem_of_In.
  split; [done|]. unfold matchesAction.
  by rewrite !bool_decide_eq_true_2.
Qed.

Lemma applyAction_active this action :
  actionIsActive this action = true → applyAction this action = this.
Proof. unfold applyAction. by intros ->. Qed.

Lemma removeActiveAction_absent this action :
  (∀ a, a ∈ activeActions this →
        ¬ (Action.type a = Action.type action ∧
           Action.entry a = Action.entry action)) →
  removeActiveAction this action = this.
Proof.
  intros Hno. destruct (matchesAction_none this action Hno) as [H1 H2].
  unfold removeActiveAction. rewrite H1, H2. by destruct this.
Qed.

(** A call that finds the cache filled, with actions active, answers with
    the cached list and leaves the object as it is, whatever the fuel. *)
Lemma visibleEntries_cached this cached fuel :
  activeActions this ≠ [] → lastVisibleEntries this = Some cached →
  visibleEntries fuel this = Some (cached, this).
Proof.
  intros Hactive Hcache. unfold visibleEntries, calculateVisibleEntries.
  rewrite bool_decide_eq_false_2, Hcache; [done|].
  by destruct (activeActions this).
Qed.

(** A call of [visibleEntries] changes the cache only. *)
Lemma visibleEntries_fields this fuel visible this' :
  visibleEntries fuel this = Some (visible, this') →
  thread this' = thread this ∧ entryToNode this' = entryToNode this ∧
  activeActions this' = activeActions this.
Proof.
  unfold visibleEntries, calculateVisibleEntries.
  case_bool_decide; [by intros [= _ <-]|].
  destruct (lastVisibleEntries this); [by intros [= _ <-]|].
  destruct (Thread.tree (thread this)); [|by intros [= _ <-]].
  destruct (hide_loop _ _ _ _ _); [|done]. by intros [= _ <-].
Qed.

Lemma reachable_fields thread entryToNode0 this :
  reachable thread entryToNode0 this →
  TreeManipulator.thread this = thread ∧ entryToNode this = entryToNode0.
Proof.
  induction 1 as [|this action _ IH|this action _ IH
                  |this fuel visible this' _ IH Hv]; simpl.
  - done.
  - unfold applyAction. by destruct (actionIsActive this action).
  - done.
  - apply visibleEntries_fields in Hv as (-> & -> & _). done.
Qed.

(** Without a tree the cache is never filled. *)
Lemma reachable_no_tree thread entryToNode0 this :
  Thread.tree thread = None →
  reachable thread entryToNode0 this → lastVisibleEntries this = None.
Proof.
  intros Hnone.
  induction 1 as [|this action Hr IH|this action Hr IH
                  |this fuel visible this' Hr IH Hv]; simpl.
  - done.
  - unfold applyAction. by destruct (actionIsActive this action).
  - by destruct (existsb _ _).
  - apply reachable_fields in Hr as [Hth _].
    unfold visibleEntries, calculateVisibleEntries in Hv.
    rewrite IH, Hth, Hnone in Hv.
    case_bool_decide; by injection Hv as _ <-.
Qed.
Lemma add_all_elem (l : list RendererEntry) (hidden : gset RendererEntry) e :
  e ∈ foldl (λ s ancestor, {[ancestor]} ∪ s) hidden l ↔ e ∈ l ∨ e ∈ hidden.
Proof.
  revert hidden. induction l as [|x l IH]; intros hidden; simpl.
  - split; [by right|]. intros [H|H]; [by apply elem_of_nil in H|done].
  - rewrite IH, elem_of_union, elem_of_singleton, elem_of_cons. tauto.
Qed.

Lemma entriesOutside_empty this :
  entriesOutside this ∅ = Thread.entries (thread this).
Proof.
  unfold entriesOutside.
  induction (Thread.entries (thread this)) as [|e l IH]; [done|].
  simpl. rewrite bool_decide_eq_true_2 by apply not_elem_of_empty.
  by rewrite IH.
Qed.

Lemma elem_of_entriesOutside this hidden e :
  e ∈ entriesOutside this hidden ↔
  e ∈ Thread.entries (thread this) ∧ e ∉ hidden.
Proof.
  unfold entriesOutside. rewrite list_elem_of_In, filter_In.
  by rewrite <- list_elem_of_In, bool_decide_eq_true.
Qed.

End manipulator_facts.

(** ** The calls return *)
Section returning.
Import TreeManipulator.
Context (thread0 : Thread.t) (tree : Tree.t).
Hypothesis has_tree : Thread.tree thread0 = Some tree.
Hypothesis no_cycle : acyclic tree.
Implicit Types (this : t) (action a : Action.t).

Lemma hide_loop_terminates this actions :
  ∃ fuel0, ∀ fuel hidden0, (fuel0 ≤ fuel)%nat →
    is_Some (hide_loop fuel this tree actions hidden0).
Proof.
  induction actions as [|action actions [fuel0 IH]].
  - exists 0%nat. by eexists.
  - destruct no_cycle as [rank Hrank].
    destruct (Action.type action) eqn:Ht.
    + exists fuel0. intros fuel hidden0 Hfuel. simpl. rewrite Ht.
      by apply IH.
    + destruct (entryToNode this !! Action.entry action) as [n|] eqn:Hn.
      * destruct (walkCost_acyclic tree rank Hrank (Node.childrenIds n))
          as [k Hk].
        exists (max k fuel0). intros fuel hidden0 Hfuel. simpl.
        rewrite Ht, Hn. unfold findAllAncestorsOfNode.
        destruct (findAllAncestors_loop_terminates tree fuel _ k [] Hk)
          as [l ->]; [lia|].
        simpl. apply IH. lia.
      * exists fuel0. intros fuel hidden0 Hfuel. simpl. rewrite Ht, Hn.
        by apply IH.
Qed.

Lemma visibleEntries_returns this :
  thread this = thread0 →
  ∃ fuel0, ∀ fuel, (fuel0 ≤ fuel)%nat → is_Some (visibleEntries fuel this).
Proof.
  intros Hth. destruct (hide_loop_terminates this (activeActions this))
    as [fuel0 Hfuel0].
  exists fuel0. intros fuel Hfuel.
  unfold visibleEntries, calculateVisibleEntries.
  case_bool_decide; [by eexists|].
  destruct (lastVisibleEntries this); [by eexists|].
  rewrite Hth, has_tree.
  destruct (Hfuel0 fuel ∅ Hfuel) as [hidden ->]. by eexists.
Qed.
End returning.


(** ** The computation of the visible entries *)
Section visibility_facts.
Import TreeManipulator.
Context (thread0 : Thread.t) (entryToNode0 : gmap RendererEntry Node.t).
Context (tree : Tree.t).
Hypothesis has_tree : Thread.tree thread0 = Some tree.
Hypothesis well_formed : wellFormed tree entryToNode0.
Implicit Types (this : t) (action a : Action.t) (e : RendererEntry).
Implicit Types (hidden : gset RendererEntry) (n d : Node.t).

Lemma index_children_truthy e n :
  entryToNode0 !! e = Some n → Forall (λ c, c ≠ 0%N) (Node.childrenIds n).
Proof.
  intros Hn. destruct (wf_index _ _ well_formed e n Hn) as [_ Hid].
  exact (wf_truthy _ _ well_formed _ _ Hid).
Qed.

(** What a collapse action hides, read off the child ids of its node. *)
Lemma hiddenBy_collapse action n e :
  Action.type action = COLLAPSE_FUNCTION →
  entryToNode0 !! Action.entry action = Some n →
  hiddenBy entryToNode0 tree action e ↔
  ∃ id, id ∈ Node.childrenIds n ∧ reachFrom tree id e.
Proof.
  intros Ht Hn. unfold hiddenBy. rewrite Ht, <- descendants_children.
  split.
  - intros (n' & d & Hn' & Hd). simplify_eq. by exists d.
  - intros (d & Hd). by exists n, d.
Qed.

Lemma hide_loop_sound this fuel actions hidden0 hidden :
  entryToNode this = entryToNode0 →
  hide_loop fuel this tree actions hidden0 = Some hidden →
  ∀ e, e ∈ hidden ↔
       e ∈ hidden0 ∨
       ∃ a, a ∈ actions ∧ hiddenBy entryToNode0 tree a e.
Proof.
  intros Hidx. revert hidden0.
  induction actions as [|action actions IH]; intros hidden0; simpl.
  - intros [= <-] e. split; [by left|].
    intros [?|(a & Ha & _)]; [done|by apply elem_of_nil in Ha].
  - assert (Hsplit : ∀ e (P : Prop),
      (P ↔ hiddenBy entryToNode0 tree action e) →
      ((e ∈ hidden0 ∨ P) ∨
         (∃ a, a ∈ actions ∧ hiddenBy entryToNode0 tree a e)) ↔
      e ∈ hidden0 ∨
        ∃ a, a ∈ action :: actions ∧ hiddenBy entryToNode0 tree a e).
    { intros e P HP. split.
      - intros [[?|HPe]|(a & Ha & Hh)]; [by left|..].
        + right. exists action. split; [by left|by apply HP].
        + right. exists a. split; [by right|done].
      - intros [?|(a & Ha & Hh)]; [by left; left|].
        apply elem_of_cons in Ha as [->|Ha].
        + left. right. by apply HP.
        + right. by exists a. }
    destruct (Action.type action) eqn:Ht.
    + intros Hres e. rewrite (IH _ Hres), elem_of_union, elem_of_singleton.
      rewrite <- (Hsplit e (e = Action.entry action)); [tauto|].
      unfold hiddenBy. by rewrite Ht.
    + rewrite Hidx.
      destruct (entryToNode0 !! Action.entry action) as [n|] eqn:Hn.
      * unfold findAllAncestorsOfNode.
        destruct (findAllAncestors_loop _ _ _ _) as [l|] eqn:Hl; [|done].
        simpl. intros Hres e. rewrite (IH _ Hres), add_all_elem.
        pose proof (findAllAncestors_loop_sound tree
          (wf_truthy _ _ well_formed) _ _ _ _
          (index_children_truthy _ _ Hn) Hl e) as Hsound.
        rewrite <- (Hsplit e (e ∈ l)); [tauto|].
        rewrite Hsound, (hiddenBy_collapse _ n) by done.
        split; [|by right]. intros [H|H]; [by apply elem_of_nil in H|done].
      * intros Hres e. rewrite (IH _ Hres).
        rewrite <- (Hsplit e False); [tauto|].
        unfold hiddenBy. rewrite Ht, Hn. split; [done|].
        by intros (n & d & ? & _).
Qed.

(** The result of a call that returns: the entries of the thread outside
    the set that the active actions hide; the cache stays valid. *)
Lemma visibleEntries_sound this fuel visible this' :
  thread this = thread0 → entryToNode this = entryToNode0 →
  cacheValid this tree →
  visibleEntries fuel this = Some (visible, this') →
  (∃ hidden, hiddenSet this tree hidden ∧
             visible = entriesOutside this hidden) ∧
  cacheValid this' tree.
Proof.
  intros Hth Hidx Hcache. unfold visibleEntries.
  case_bool_decide as Hlen.
  - intros [= <- <-]. split; [|done]. exists ∅.
    split; [|by rewrite entriesOutside_empty].
    intros e. split; [by intros ?%not_elem_of_empty|].
    intros (a & Ha & _). destruct (activeActions this); [|done].
    by apply elem_of_nil in Ha.
  - unfold calculateVisibleEntries.
    destruct (lastVisibleEntries this) as [cached|] eqn:Hc.
    { intros [= <- <-]. split; [|done]. by apply Hcache. }
    rewrite Hth, has_tree.
    destruct (hide_loop _ _ _ _ _) as [hidden|] eqn:Hh; [|done].
    simpl. intros [= <- <-].
    assert (Hset : hiddenSet this tree hidden).
    { intros e. rewrite (hide_loop_sound _ _ _ _ _ Hidx Hh e), Hidx.
      split; [|by right]. intros [H|H]; [|done].
      by apply not_elem_of_empty in H. }
    split.
    + exists hidden. split; [done|]. unfold entriesOutside. by rewrite Hth.
    + intros cached [= <-]. exists hidden. split; [done|].
      unfold entriesOutside. done.
Qed.

Lemma reachable_cacheValid this :
  reachable thread0 entryToNode0 this → cacheValid this tree.
Proof.
  induction 1 as [|this action Hr IH|this action Hr IH
                  |this fuel visible this' Hr IH Hv].
  - by intros cached.
  - unfold applyAction. destruct (actionIsActive this action); [done|].
    by intros cached.
  - unfold removeActiveAction.
    destruct (existsb _ _) eqn:Hex; [by intros cached|].
    rewrite (existsb_false_filter _ _ Hex). intros cached Hc. destruct (IH cached Hc) as (h & Hh & ->).
    by exists h.
  - destruct (reachable_fields _ _ _ Hr) as [Hth Hidx].
    by destruct (visibleEntries_sound _ _ _ _ Hth Hidx IH Hv).
Qed.

(** The visible entries of a manipulator that calls of the methods lead
    to: with enough fuel the call returns the entries of the thread, in
    their order, that no active action hides. *)
Lemma visibleEntries_spec this :
  reachable thread0 entryToNode0 this →
  ∃ fuel0, ∀ fuel, (fuel0 ≤ fuel)%nat →
    ∃ hidden this',
      visibleEntries fuel this = Some (entriesOutside this hidden, this') ∧
      hiddenSet this tree hidden.
Proof.
  intros Hr. destruct (reachable_fields _ _ _ Hr) as [Hth Hidx].
  destruct (visibleEntries_returns thread0 tree has_tree
              (wf_acyclic _ _ well_formed) this Hth) as [fuel0 Hfuel0].
  exists fuel0. intros fuel Hfuel.
  destruct (Hfuel0 fuel Hfuel) as [[visible this'] Hv].
  destruct (visibleEntries_sound _ _ _ _ Hth Hidx
              (reachable_cacheValid _ Hr) Hv) as [(hidden & Hh & ->) _].
  by exists hidden, this'.
Qed.

(** Down the tree the rank of the id of a node goes down, so a node is not
    among its own strict descendants and no strict descendant holds its
    entry. *)
Lemma descendant_rank (rank : N → nat) i n d :
  map_Forall (λ id n,
    Forall (λ c, is_Some (Tree.nodes tree !! c) → (rank c < rank id)%nat)
      (Node.childrenIds n)) (Tree.nodes tree) →
  Tree.nodes tree !! i = Some n → descendantOf tree d n →
  ∃ j, Tree.nodes tree !! j = Some d ∧ (rank j < rank i)%nat.
Proof.
  intros Hrank Hi Hd. unfold descendantOf in Hd. revert i Hi.
  induction Hd as [n d (c & Hc & Hcd)|n m d (c & Hc & Hcm) _ IH]; intros i Hi.
  - exists c. split; [done|].
    specialize (Hrank i n Hi). rewrite Forall_forall in Hrank.
    apply Hrank; [done|]. by eexists.
  - destruct (IH c Hcm) as (j & Hj & Hlt). exists j. split; [done|].
    specialize (Hrank i n Hi). rewrite Forall_forall in Hrank.
    specialize (Hrank c Hc (mk_is_Some _ _ Hcm)). lia.
Qed.

Lemma descendant_entry_differs e n d :
  entryToNode0 !! e = Some n → descendantOf tree d n → Node.entry d ≠ e.
Proof.
  intros Hn Hd He.
  destruct (wf_index _ _ well_formed e n Hn) as [Hen Hid].
  destruct (wf_acyclic _ _ well_formed) as [rank Hrank].
  destruct (descendant_rank rank _ _ _ Hrank Hid Hd) as (j & Hj & Hlt).
  assert (Node.id n = j) as Heq; [|rewrite Heq in Hlt; lia].
  apply (wf_entries _ _ well_formed _ _ Hid _ _ Hj). congruence.
Qed.

(** C1. Take a manipulator that calls of the methods lead to, on a thread
    with a well-formed tree, and an active collapse action.  With enough
    fuel [visibleEntries] returns the entries of the thread outside a set of
    hidden entries, in their order.  When the entry of the action has a
    node: the entry of every strict descendant of the node is absent from
    the result; an entry of the thread that is absent from the result is
    the entry of a strict descendant of the node or is hidden by another
    active action; the entry of the action is not the entry of any of these
    descendants, so it is in the result when it is an entry of the thread
    that no other active action hides.  When the entry has no node, the
    call returns all the same and the result is what the other active
    actions leave visible. *)
Theorem collapse_hides_strict_descendants this action :
  reachable thread0 entryToNode0 this →
  action ∈ activeActions this →
  Action.type action = COLLAPSE_FUNCTION →
  ∃ fuel0, ∀ fuel, (fuel0 ≤ fuel)%nat →
    ∃ visible this',
      visibleEntries fuel this = Some (visible, this') ∧
      (∃ hidden, visible = entriesOutside this hidden) ∧
      (∀ n, entryToNode0 !! Action.entry action = Some n →
         (∀ d, descendantOf tree d n → Node.entry d ∉ visible) ∧
         (∀ e, e ∈ Thread.entries thread0 → e ∉ visible →
            (∃ d, descendantOf tree d n ∧ Node.entry d = e) ∨
            (∃ other, other ∈ activeActions this ∧ other ≠ action ∧
                      hiddenBy entryToNode0 tree other e)) ∧
         (∀ d, descendantOf tree d n → Node.entry d ≠ Action.entry action) ∧
         (Action.entry action ∈ Thread.entries thread0 →
          (∀ other, other ∈ activeActions this → other ≠ action →
                    ¬ hiddenBy entryToNode0 tree other (Action.entry action)) →
          Action.entry action ∈ visible)) ∧
      (entryToNode0 !! Action.entry action = None →
         ∀ e, e ∈ visible ↔
              e ∈ Thread.entries thread0 ∧
              ∀ other, other ∈ activeActions this → other ≠ action →
                       ¬ hiddenBy entryToNode0 tree other e).
Proof.
  intros Hr Hactive Htype.
  destruct (reachable_fields _ _ _ Hr) as [Hth Hidx].
  destruct (visibleEntries_spec this Hr) as [fuel0 Hspec].
  exists fuel0. intros fuel Hfuel.
  destruct (Hspec fuel Hfuel) as (hidden & this' & Hv & Hset).
  exists (entriesOutside this hidden), this'.
  split; [done|]. split; [by exists hidden|].
  unfold hiddenSet in Hset. rewrite Hidx in Hset.
  assert (Hother : ∀ e (P : Prop),
    (hiddenBy entryToNode0 tree action e → P) →
    e ∈ hidden →
    P ∨ ∃ other, other ∈ activeActions this ∧ other ≠ action ∧
                 hiddenBy entryToNode0 tree other e).
  { intros e P HP (a & Ha & Hh)%Hset.
    destruct (decide (a = action)) as [->|Hne]; [left; by apply HP|].
    right. by exists a. }
  split.
  - intros n Hn.
    assert (Hmine : ∀ e, hiddenBy entryToNode0 tree action e ↔
                         ∃ d, descendantOf tree d n ∧ Node.entry d = e).
    { intros e. unfold hiddenBy. rewrite Htype. split.
      - intros (n' & d & Hn' & Hd). simplify_eq. by exists d.
      - intros (d & Hd). by exists n, d. }
    split; [|split; [|split]].
    + intros d Hd. rewrite elem_of_entriesOutside. intros [_ Hnot].
      apply Hnot, Hset. exists action. split; [done|].
      apply Hmine. by exists d.
    + intros e He Hnot. rewrite elem_of_entriesOutside, Hth in Hnot.
      apply (Hother e); [by intros ?%Hmine|].
      destruct (decide (e ∈ hidden)); [done|]. by destruct Hnot.
    + intros d Hd. by apply (descendant_entry_differs _ n).
    + intros Hin Hfree. rewrite elem_of_entriesOutside, Hth.
      split; [done|]. intros Hhid.
      assert (Hown : ¬ hiddenBy entryToNode0 tree action (Action.entry action)).
      { intros (d & Hd & He)%Hmine.
        by apply (descendant_entry_differs _ n d Hn Hd). }
      destruct (Hother _ False Hown Hhid) as [[]|(o & Ho & Hne & Hh)].
      by apply (Hfree o).
  - intros Hnone e. rewrite elem_of_entriesOutside, Hth.
    assert (Hmine : ¬ hiddenBy entryToNode0 tree action e).
    { unfold hiddenBy. rewrite Htype, Hnone. by intros (n & d & ? & _). }
    split.
    + intros [He Hnot]. split; [done|]. intros o Ho _ Hh.
      apply Hnot, Hset. by exists o.
    + intros [He Hfree]. split; [done|]. intros Hhid.
      destruct (Hother _ False Hmine Hhid) as [[]|(o & Ho & Hne & Hh)].
      by apply (Hfree o).
Qed.

End visibility_facts.

(** ** Merge actions *)
Section merge_facts.
Import TreeManipulator.
Context (thread0 : Thread.t) (entryToNode0 : gmap RendererEntry Node.t).
Context (tree : Tree.t).
Hypothesis has_tree : Thread.tree thread0 = Some tree.
Hypothesis no_cycle : acyclic tree.
Implicit Types (this : t) (action a : Action.t) (e : RendererEntry).
Implicit Types (hidden : gset RendererEntry) (n d : Node.t).

(** Whatever the walks meet, the loop over the actions puts the entry of
    every merge action into the set, and puts nothing into it that no action
    hides. *)
Lemma hide_loop_within this fuel actions hidden0 hidden :
  entryToNode this = entryToNode0 →
  hide_loop fuel this tree actions hidden0 = Some hidden →
  (∀ e, e ∈ hidden0 → e ∈ hidden) ∧
  (∀ a, a ∈ actions → Action.type a = MERGE_FUNCTION →
        Action.entry a ∈ hidden) ∧
  (∀ e, e ∈ hidden →
        e ∈ hidden0 ∨ ∃ a, a ∈ actions ∧ hiddenBy entryToNode0 tree a e).
Proof.
  intros Hidx. revert hidden0.
  induction actions as [|action actions IH]; intros hidden0; simpl.
  - intros [= <-]. split; [done|]. split; [|by left].
    by intros a Ha%elem_of_nil.
  - assert (Hrest : ∀ hidden1,
      hide_loop fuel this tree actions hidden1 = Some hidden →
      (∀ e, e ∈ hidden0 → e ∈ hidden1) →
      (Action.type action = MERGE_FUNCTION → Action.entry action ∈ hidden1) →
      (∀ e, e ∈ hidden1 → e ∈ hidden0 ∨ hiddenBy entryToNode0 tree action e) →
      (∀ e, e ∈ hidden0 → e ∈ hidden) ∧
      (∀ a, a ∈ action :: actions → Action.type a = MERGE_FUNCTION →
            Action.entry a ∈ hidden) ∧
      (∀ e, e ∈ hidden →
            e ∈ hidden0 ∨
            ∃ a, a ∈ action :: actions ∧ hiddenBy entryToNode0 tree a e)).
    { intros hidden1 Hres Hsub Hmerge Hnew.
      destruct (IH _ Hres) as (IH1 & IH2 & IH3).
      split; [intros e He; by apply IH1, Hsub|]. split.
      - intros a Ha Ht. apply elem_of_cons in Ha as [->|Ha].
        + by apply IH1, Hmerge.
        + by apply IH2.
      - intros e He. destruct (IH3 e He) as [H1|(a & Ha & Hh)].
        + destruct (Hnew e H1) as [?|Hh]; [by left|].
          right. exists action. split; [by left|done].
        + right. exists a. split; [by right|done]. }
    destruct (Action.type action) eqn:Ht.
    + intros Hres. apply (Hrest _ Hres).
      * intros e He. apply elem_of_union. by right.
      * intros _. apply elem_of_union. left. by apply elem_of_singleton.
      * intros e [He%elem_of_singleton|He]%elem_of_union; [|by left].
        right. unfold hiddenBy. by rewrite Ht.
    + rewrite Hidx.
      destruct (entryToNode0 !! Action.entry action) as [n|] eqn:Hn.
      * unfold findAllAncestorsOfNode.
        destruct (findAllAncestors_loop _ _ _ _) as [l|] eqn:Hl; [|done].
        simpl. intros Hres. apply (Hrest _ Hres).
        -- intros e He. apply add_all_elem. by right.
        -- done.
        -- intros e [He|He]%add_all_elem; [|by left]. right.
           apply (hiddenBy_collapse entryToNode0 tree _ n); [done..|].
           destruct (findAllAncestors_loop_within tree _ _ _ _ Hl e He)
             as [Hnil|Hr]; [by apply elem_of_nil in Hnil|done].
      * intros Hres. apply (Hrest _ Hres); [done|done|by left].
Qed.

Lemma visibleEntries_within this fuel visible this' :
  thread this = thread0 → entryToNode this = entryToNode0 →
  cacheWithin this tree →
  visibleEntries fuel this = Some (visible, this') →
  (∃ hidden, hiddenWithin this tree hidden ∧
             visible = entriesOutside this hidden) ∧
  cacheWithin this' tree.
Proof.
  intros Hth Hidx Hcache. unfold visibleEntries.
  case_bool_decide as Hlen.
  - intros [= <- <-]. split; [|done]. exists ∅.
    split; [|by rewrite entriesOutside_empty].
    destruct (activeActions this) eqn:Hact; [|done].
    split; [|by intros e ?%not_elem_of_empty].
    intros a Ha. rewrite Hact in Ha. by apply elem_of_nil in Ha.
  - unfold calculateVisibleEntries.
    destruct (lastVisibleEntries this) as [cached|] eqn:Hc.
    { intros [= <- <-]. split; [|done]. by apply Hcache. }
    rewrite Hth, has_tree.
    destruct (hide_loop _ _ _ _ _) as [hidden|] eqn:Hh; [|done].
    simpl. intros [= <- <-].
    assert (Hset : hiddenWithin this tree hidden).
    { destruct (hide_loop_within _ _ _ _ _ Hidx Hh) as (_ & H2 & H3).
      split; [done|]. intros e He. rewrite Hidx.
      destruct (H3 e He) as [H|H]; [|done]. by apply not_elem_of_empty in H. }
    split.
    + exists hidden. split; [done|]. unfold entriesOutside. by rewrite Hth.
    + intros cached [= <-]. by exists hidden.
Qed.

Lemma reachable_cacheWithin this :
  reachable thread0 entryToNode0 this → cacheWithin this tree.
Proof.
  induction 1 as [|this action Hr IH|this action Hr IH
                  |this fuel visible this' Hr IH Hv].
  - by intros cached.
  - unfold applyAction. destruct (actionIsActive this action); [done|].
    by intros cached.
  - unfold removeActiveAction.
    destruct (existsb _ _) eqn:Hex; [by intros cached|].
    rewrite (existsb_false_filter _ _ Hex).
    intros cached Hc. destruct (IH cached Hc) as (h & Hh & ->).
    by exists h.
  - destruct (reachable_fields _ _ _ Hr) as [Hth Hidx].
    by destruct (visibleEntries_within _ _ _ _ Hth Hidx IH Hv).
Qed.

(** C7, amended. Take a manipulator that calls of the methods lead to, on
    a thread that has a tree, the tree without a cycle, and an active merge
    action.  With enough fuel [visibleEntries] returns the entries of the
    thread outside a set of hidden entries, in their order; the entry of
    the action is absent from the result; every other entry of the thread
    that no other active action hides is in the result.  In a well-formed
    tree the entries of the children of the node of the merged entry are
    such other entries. *)
Theorem merge_hides_entry_with_tree this action :
  reachable thread0 entryToNode0 this →
  action ∈ activeActions this →
  Action.type action = MERGE_FUNCTION →
  ∃ fuel0, ∀ fuel, (fuel0 ≤ fuel)%nat →
    ∃ visible this',
      visibleEntries fuel this = Some (visible, this') ∧
      (∃ hidden, visible = entriesOutside this hidden) ∧
      (Action.entry action ∉ visible) ∧
      (∀ e, e ∈ Thread.entries thread0 → e ≠ Action.entry action →
         (∀ other, other ∈ activeActions this → other ≠ action →
                   ¬ hiddenBy entryToNode0 tree other e) →
         e ∈ visible) ∧
      (wellFormed tree entryToNode0 →
       ∀ n c, entryToNode0 !! Action.entry action = Some n →
              childOf tree c n → Node.entry c ≠ Action.entry action).
Proof.
  intros Hr Hactive Htype.
  destruct (reachable_fields _ _ _ Hr) as [Hth Hidx].
  destruct (visibleEntries_returns thread0 tree has_tree no_cycle this Hth)
    as [fuel0 Hfuel0].
  exists fuel0. intros fuel Hfuel.
  destruct (Hfuel0 fuel Hfuel) as [[visible this'] Hv].
  destruct (visibleEntries_within _ _ _ _ Hth Hidx
              (reachable_cacheWithin _ Hr) Hv)
    as [(hidden & [Hmerge Hin] & ->) _].
  rewrite Hidx in Hin.
  exists (entriesOutside this hidden), this'.
  split; [done|]. split; [by exists hidden|].
  split; [|split].
  - rewrite elem_of_entriesOutside. intros [_ Hnot].
    by apply Hnot, Hmerge.
  - intros e He Hne Hfree. rewrite elem_of_entriesOutside, Hth.
    split; [done|]. intros (a & Ha & Hh)%Hin.
    destruct (decide (a = action)) as [->|Hna].
    + unfold hiddenBy in Hh. by rewrite Htype in Hh.
    + by apply (Hfree a).
  - intros Hwf n c Hn Hc.
    apply (descendant_entry_differs entryToNode0 tree Hwf _ n c Hn).
    by apply tc_once.
Qed.
End merge_facts.

Section state_facts.
Import TreeManipulator.
Implicit Types (this : t) (action a : Action.t).

Lemma reachable_cache_active thread entryToNode0 this :
  reachable thread entryToNode0 this →
  is_Some (lastVisibleEntries this) → activeActions this ≠ [].
Proof.
  induction 1 as [|this action Hr IH|this action Hr IH
                  |this fuel visible this' Hr IH Hv].
  - by intros [? ?].
  - unfold applyAction. destruct (actionIsActive this action); [done|].
    by intros [? ?].
  - unfold removeActiveAction.
    destruct (existsb _ _) eqn:Hex; [by intros [? ?]|]. simpl.
    intros Hc. specialize (IH Hc).
    by rewrite (existsb_false_filter _ _ Hex).
  - destruct (visibleEntries_fields _ _ _ _ Hv) as (_ & _ & ->).
    unfold visibleEntries in Hv. case_bool_decide as Hlen.
    + injection Hv as _ <-. done.
    + intros _ Hnil. by rewrite Hnil in Hlen.
Qed.

(** C8. With no active action [visibleEntries] returns the list of all the
    entries of the thread, as it is, and leaves the object as it is. *)
Theorem visibleEntries_without_actions this fuel :
  activeActions this = [] →
  visibleEntries fuel this = Some (Thread.entries (thread this), this).
Proof. intros Hnone. unfold visibleEntries. by rewrite Hnone. Qed.

(** C9. Let [this'] be the object after [applyAction] with an action whose
    tag and entry are those of an active action, or after
    [removeActiveAction] with an action that matches no active action.
    Then [this'] is the object before the call: the list of active actions
    and the cache are as they were.  When the cache was filled, the next
    [visibleEntries] returns the cached list, with any fuel, so without a
    walk, and leaves the object as it is. *)
Theorem noop_action_keeps_state thread entryToNode0 this action this' :
  reachable thread entryToNode0 this →
  ((∃ a, a ∈ activeActions this ∧ Action.type a = Action.type action ∧
         Action.entry a = Action.entry action) ∧
   this' = applyAction this action) ∨
  ((∀ a, a ∈ activeActions this →
         ¬ (Action.type a = Action.type action ∧
            Action.entry a = Action.entry action)) ∧
   this' = removeActiveAction this action) →
  this' = this ∧
  activeActions this' = activeActions this ∧
  lastVisibleEntries this' = lastVisibleEntries this ∧
  ∀ cached fuel, lastVisibleEntries this = Some cached →
    visibleEntries fuel this' = Some (cached, this').
Proof.
  intros Hr Hcall.
  assert (Hsame : this' = this).
  { destruct Hcall as [[Hact ->]|[Hno ->]].
    - by apply applyAction_active, actionIsActive_true.
    - by apply removeActiveAction_absent. }
  subst this'. repeat split; try done.
  intros cached fuel Hc. apply visibleEntries_cached; [|done].
  eapply reachable_cache_active; [done|]. by eexists.
Qed.

(** C10. On a thread without a tree [visibleEntries] returns the list of
    all the entries of the thread, whatever actions are active, and leaves
    the object as it is. *)
Theorem visibleEntries_without_tree thread entryToNode0 this fuel :
  Thread.tree thread = None →
  reachable thread entryToNode0 this →
  visibleEntries fuel this = Some (Thread.entries thread, this).
Proof.
  intros Hnone Hr.
  pose proof (reachable_no_tree _ _ _ Hnone Hr) as Hc.
  destruct (reachable_fields _ _ _ Hr) as [Hth _].
  unfold visibleEntries, calculateVisibleEntries.
  rewrite Hc, Hth, Hnone. by case_bool_decide.
Qed.
End state_facts.

(** * The theorems on the sample data *)
Section samples.
Import Trace TreeManipulator Examples.

Lemma sample_sorted :
  sortedEvents [evLong; evShort; evLate] ∧ sortedEvents [evShort].
Proof.
  unfold sortedEvents. split; repeat constructor; by vm_compute.
Defined.

Lemma sortTraceEventsInPlace_idempotent_witness :
  sortedEvents [evLong; evShort; evLate] ∧
  sortTraceEventsInPlace [evLong; evShort; evLate]
    = [evLong; evShort; evLate].
Proof.
  split; [apply sample_sorted|].
  apply (sortTraceEventsInPlace_idempotent [evLong; evShort; evLate]).
  apply sample_sorted.
Defined.

Lemma mergeEventsInOrder_sorted_stable_witness :
  sortedEvents [evLong; evLate] ∧ sortedEvents [evShort] ∧
  ∃ r, mergeEventsInOrder [evLong; evLate] [evShort] = Some r ∧
       r ≡ₚ [evLong; evLate] ++ [evShort] ∧
       sortedEvents r ∧
       (∀ x y, x ∈ [evLong; evLate] → y ∈ [evShort] →
          eventTimeComparator x y ≤ 0 →
          ∃ l1 l2 l3, r = l1 ++ x :: l2 ++ y :: l3) ∧
       r = JS.Array_sort eventTimeComparator ([evLong; evLate] ++ [evShort]).
Proof.
  assert (Ha : sortedEvents [evLong; evLate]).
  { unfold sortedEvents. repeat constructor; by vm_compute. }
  split; [exact Ha|]. split; [apply sample_sorted|].
  apply (mergeEventsInOrder_sorted_stable [evLong; evLate] [evShort] Ha).
  apply sample_sorted.
Defined.
Lemma pairing_begin_end_witness :
  Event.ph asyncBegin = ASYNC_NESTABLE_START ∧
  Event.ph asyncEnd = ASYNC_NESTABLE_END ∧
  Event.cat asyncBegin = Event.cat asyncEnd ∧
  Event.name asyncBegin = Event.name asyncEnd ∧
  extractId asyncBegin = Some "7" ∧
  extractId asyncEnd = Some "7" ∧
  "loading:7:fetch"
    = Event.cat asyncBegin +:+ ":" +:+ "7" +:+ ":" +:+ Event.name asyncBegin ∧
  ((Event.ts asyncBegin ≤ Event.ts asyncEnd →
      ∃ s, Synthetic.ts s = Event.ts asyncBegin ∧
           Synthetic.dur s = Event.ts asyncEnd - Event.ts asyncBegin ∧
           createMatchedSortedSyntheticEvents [asyncBegin; asyncEnd] = [s] ∧
           createMatchedSortedSyntheticEvents [asyncEnd; asyncBegin] = [s] ∧
           ∀ events, beginsOf "loading:7:fetch" events = [asyncBegin] →
                     endsOf "loading:7:fetch" events = [asyncEnd] →
                     emittedFor "loading:7:fetch" events = [s]) ∧
   (Event.ts asyncEnd < Event.ts asyncBegin →
      createMatchedSortedSyntheticEvents [asyncBegin; asyncEnd] = [] ∧
      createMatchedSortedSyntheticEvents [asyncEnd; asyncBegin] = [] ∧
      ∀ events, beginsOf "loading:7:fetch" events = [asyncBegin] →
                endsOf "loading:7:fetch" events = [asyncEnd] →
                emittedFor "loading:7:fetch" events = []) ∧
   createMatchedSortedSyntheticEvents [asyncBegin] = [] ∧
   createMatchedSortedSyntheticEvents [asyncEnd] = [] ∧
   (∀ events key',
      beginsOf key' events = [] ∨ endsOf key' events = [] →
      emittedFor key' events = [])).
Proof.
  repeat (split; [reflexivity|]).
  apply (pairing_begin_end asyncBegin asyncEnd "7" "loading:7:fetch");
    reflexivity.
Defined.

Lemma matching_last_write_wins_witness :
  extractId withoutId = None ∧
  extractId firstBegin = Some "9" ∧ extractId laterBegin = Some "9" ∧
  extractId firstEnd = Some "9" ∧ extractId laterEnd = Some "9" ∧
  JS.Map_get (matchBeginningAndEndEvents overwritten) "loading:9:fetch"
    = Some (EventsPair.mk (Some laterBegin) (Some laterEnd)) ∧
  emittedFor "loading:9:fetch" overwritten
    = [makeSynthetic "loading:9:fetch" laterBegin laterEnd] ∧
  createMatchedSortedSyntheticEvents overwritten
    = [makeSynthetic "loading:9:fetch" laterBegin laterEnd] ∧
  matchBeginningAndEndEvents overwritten
    = matchBeginningAndEndEvents [firstBegin; firstEnd; laterBegin; laterEnd].
Proof.
  destruct (matching_last_write_wins overwritten)
    as (Hnone & Hsome & _ & _ & _ & Hget & Hemit & _ & _ & Hskip).
  split.
  { apply Hnone. split; [reflexivity|]. intros i2 [= <-]. by split. }
  split; [apply Hsome; by left|].
  split.
  { apply Hsome. right. split; [reflexivity|].
    eexists. split; [reflexivity|]. by left. }
  split.
  { apply Hsome. right. split; [reflexivity|].
    eexists. split; [reflexivity|]. by right. }
  split; [apply Hsome; by left|].
  split; [rewrite Hget; by vm_compute|].
  split; [rewrite Hemit; by vm_compute|].
  split; [reflexivity|].
  apply (Hskip [firstBegin; firstEnd] withoutId [laterBegin; laterEnd]);
    [reflexivity|reflexivity|].
  intros i2 [= <-]. by split.
Defined.

(** The example of section 8 of the specification: with A collapsed the
    visible entries are R, A and B; with B merged as well they are R and A. *)
Example sample_collapse :
  fst <$> visibleEntries 5 (applyAction (constructor thread entryToNode)
                              collapseA)
    = Some [entryR; entryA; entryB].
Proof. reflexivity. Qed.

Example sample_collapse_and_merge :
  fst <$> visibleEntries 5 collapsedAndMerged = Some [entryR; entryA].
Proof. reflexivity. Qed.

Lemma sample_wellFormed : wellFormed tree entryToNode.
Proof.
  split.
  - exists rank. apply (bool_decide_unpack _). by vm_compute.
  - apply (bool_decide_unpack _). by vm_compute.
  - apply (bool_decide_unpack _). by vm_compute.
  - apply (bool_decide_unpack _). by vm_compute.
Defined.

Lemma sample_reachable : reachable thread entryToNode collapsedAndMerged.
Proof. do 2 apply reachable_applyAction. apply reachable_constructor. Defined.

Lemma collapse_hides_strict_descendants_witness :
  Thread.tree thread = Some tree ∧
  wellFormed tree entryToNode ∧
  reachable thread entryToNode collapsedAndMerged ∧
  collapseA ∈ activeActions collapsedAndMerged ∧
  Action.type collapseA = COLLAPSE_FUNCTION ∧
  ∃ fuel0, ∀ fuel, (fuel0 ≤ fuel)%nat →
    ∃ visible this',
      visibleEntries fuel collapsedAndMerged = Some (visible, this') ∧
      (∃ hidden, visible = entriesOutside collapsedAndMerged hidden) ∧
      (∀ n, entryToNode !! Action.entry collapseA = Some n →
         (∀ d, descendantOf tree d n → Node.entry d ∉ visible) ∧
         (∀ e, e ∈ Thread.entries thread → e ∉ visible →
            (∃ d, descendantOf tree d n ∧ Node.entry d = e) ∨
            (∃ other, other ∈ activeActions collapsedAndMerged ∧
                      other ≠ collapseA ∧
                      hiddenBy entryToNode tree other e)) ∧
         (∀ d, descendantOf tree d n → Node.entry d ≠ Action.entry collapseA) ∧
         (Action.entry collapseA ∈ Thread.entries thread →
          (∀ other, other ∈ activeActions collapsedAndMerged →
                    other ≠ collapseA →
                    ¬ hiddenBy entryToNode tree other
                        (Action.entry collapseA)) →
          Action.entry collapseA ∈ visible)) ∧
      (entryToNode !! Action.entry collapseA = None →
         ∀ e, e ∈ visible ↔
              e ∈ Thread.entries thread ∧
              ∀ other, other ∈ activeActions collapsedAndMerged →
                       other ≠ collapseA →
                       ¬ hiddenBy entryToNode tree other e).
Proof.
  split; [reflexivity|]. split; [exact sample_wellFormed|].
  split; [exact sample_reachable|].
  assert (Hin : collapseA ∈ activeActions collapsedAndMerged)
    by (vm_compute; by left).
  split; [exact Hin|]. split; [reflexivity|].
  exact (collapse_hides_strict_descendants thread entryToNode tree eq_refl
           sample_wellFormed collapsedAndMerged collapseA sample_reachable
           Hin eq_refl).
Defined.

Lemma merge_hides_entry_with_tree_witness :
  Thread.tree thread = Some tree ∧
  acyclic tree ∧
  reachable thread entryToNode collapsedAndMerged ∧
  mergeB ∈ activeActions collapsedAndMerged ∧
  Action.type mergeB = MERGE_FUNCTION ∧
  ∃ fuel0, ∀ fuel, (fuel0 ≤ fuel)%nat →
    ∃ visible this',
      visibleEntries fuel collapsedAndMerged = Some (visible, this') ∧
      (∃ hidden, visible = entriesOutside collapsedAndMerged hidden) ∧
      (Action.entry mergeB ∉ visible) ∧
      (∀ e, e ∈ Thread.entries thread → e ≠ Action.entry mergeB →
         (∀ other, other ∈ activeActions collapsedAndMerged →
                   other ≠ mergeB →
                   ¬ hiddenBy entryToNode tree other e) →
         e ∈ visible) ∧
      (wellFormed tree entryToNode →
       ∀ n c, entryToNode !! Action.entry mergeB = Some n →
              childOf tree c n → Node.entry c ≠ Action.entry mergeB).
Proof.
  split; [reflexivity|]. split; [exact (wf_acyclic _ _ sample_wellFormed)|].
  split; [exact sample_reachable|].
  assert (Hin : mergeB ∈ activeActions collapsedAndMerged)
    by (vm_compute; right; by left).
  split; [exact Hin|]. split; [reflexivity|].
  exact (merge_hides_entry_with_tree thread entryToNode tree eq_refl
           (wf_acyclic _ _ sample_wellFormed) collapsedAndMerged mergeB
           sample_reachable Hin eq_refl).
Defined.

(** On the sample thread without its tree the merged entry B is still in
    the list that [visibleEntries] returns: the merge action hides
    nothing. *)
Lemma merge_without_tree_hides_nothing :
  mergeB ∈ activeActions mergedWithoutTree ∧
  Action.type mergeB = MERGE_FUNCTION ∧
  ∀ fuel,
    visibleEntries fuel mergedWithoutTree
      = Some ([entryR; entryA; entryA1; entryB], mergedWithoutTree) ∧
    Action.entry mergeB ∈ [entryR; entryA; entryA1; entryB].
Proof.
  split; [vm_compute; by left|]. split; [reflexivity|].
  intros fuel. split; [reflexivity|]. vm_compute. do 3 right. by left.
Qed.

Lemma visibleEntries_without_actions_witness :
  activeActions (constructor thread entryToNode) = [] ∧
  visibleEntries 0 (constructor thread entryToNode)
    = Some (Thread.entries (TreeManipulator.thread
                              (constructor thread entryToNode)),
            constructor thread entryToNode).
Proof.
  split; [reflexivity|].
  apply (visibleEntries_without_actions (constructor thread entryToNode) 0).
  reflexivity.
Defined.

Lemma visibleEntries_without_tree_witness :
  Thread.tree threadWithoutTree = None ∧
  reachable threadWithoutTree entryToNode collapsedAndMergedWithoutTree ∧
  visibleEntries 5 collapsedAndMergedWithoutTree
    = Some (Thread.entries threadWithoutTree, collapsedAndMergedWithoutTree).
Proof.
  assert (Hr : reachable threadWithoutTree entryToNode
                 collapsedAndMergedWithoutTree).
  { do 2 apply reachable_applyAction. apply reachable_constructor. }
  split; [reflexivity|]. split; [exact Hr|].
  exact (visibleEntries_without_tree threadWithoutTree entryToNode
           collapsedAndMergedWithoutTree 5 eq_refl Hr).
Defined.
Lemma sample_cached : reachable thread entryToNode collapsedAndCached.
Proof.
  apply (reachable_visibleEntries thread entryToNode
           (applyAction (constructor thread entryToNode) collapseA) 5
           [entryR; entryA; entryB]).
  - apply reachable_applyAction, reachable_constructor.
  - reflexivity.
Defined.

Lemma noop_action_keeps_state_witness :
  reachable thread entryToNode collapsedAndCached ∧
  (((∃ a, a ∈ activeActions collapsedAndCached ∧
          Action.type a = Action.type mergeB ∧
          Action.entry a = Action.entry mergeB) ∧
    removeActiveAction collapsedAndCached mergeB
      = applyAction collapsedAndCached mergeB) ∨
   ((∀ a, a ∈ activeActions collapsedAndCached →
          ¬ (Action.type a = Action.type mergeB ∧
             Action.entry a = Action.entry mergeB)) ∧
    removeActiveAction collapsedAndCached mergeB
      = removeActiveAction collapsedAndCached mergeB)) ∧
  (removeActiveAction collapsedAndCached mergeB = collapsedAndCached ∧
   activeActions (removeActiveAction collapsedAndCached mergeB)
     = activeActions collapsedAndCached ∧
   lastVisibleEntries (removeActiveAction collapsedAndCached mergeB)
     = lastVisibleEntries collapsedAndCached ∧
   ∀ cached fuel, lastVisibleEntries collapsedAndCached = Some cached →
     visibleEntries fuel (removeActiveAction collapsedAndCached mergeB)
       = Some (cached, removeActiveAction collapsedAndCached mergeB)).
Proof.
  assert (Hcall :
    ((∃ a, a ∈ activeActions collapsedAndCached ∧
           Action.type a = Action.type mergeB ∧
           Action.entry a = Action.entry mergeB) ∧
     removeActiveAction collapsedAndCached mergeB
       = applyAction collapsedAndCached mergeB) ∨
    ((∀ a, a ∈ activeActions collapsedAndCached →
           ¬ (Action.type a = Action.type mergeB ∧
              Action.entry a = Action.entry mergeB)) ∧
     removeActiveAction collapsedAndCached mergeB
       = removeActiveAction collapsedAndCached mergeB)).
  { right. split; [|reflexivity]. intros a Ha [Ht _].
    apply list_elem_of_singleton in Ha. subst a. discriminate Ht. }
  split; [exact sample_cached|]. split; [exact Hcall|].
  exact (noop_action_keeps_state thread entryToNode collapsedAndCached mergeB
           (removeActiveAction collapsedAndCached mergeB)
           sample_cached Hcall).
Defined.
End samples.

(** * More on the ordering of events *)
Section ordering_more.
Context {A : Type} `{Trace.TimeSpan A}.
Implicit Types (a b c : list A) (x y : A).

Abbreviation cmp := (@Trace.eventTimeComparator A _).
Abbreviation precedes := (JS.not_after (@Trace.eventTimeComparator A _)).

#[local] Existing Instances comparator_Total comparator_Transitive.

(** X1. The comparator is consistent: exchanging its arguments changes the
    sign of the answer, and an event compares as equal to itself. *)
Theorem eventTimeComparator_antisymmetric x y :
  Trace.eventTimeComparator y x = - Trace.eventTimeComparator x y ∧
  Trace.eventTimeComparator x x = 0.
Proof.
  unfold Trace.eventTimeComparator. split; repeat case_bool_decide; lia.
Qed.

Lemma list_merge_sublist_l a b : a `sublist_of` list_merge precedes a b.
Proof.
  revert b. induction a as [|x a IHa]; intros b; [apply sublist_nil_l|].
  induction b as [|y b IHb]; [by rewrite list_merge_nil_r|].
  rewrite list_merge_cons. case_decide.
  - apply sublist_skip, IHa.
  - by apply sublist_cons.
Qed.

Lemma list_merge_sublist_r a b : b `sublist_of` list_merge precedes a b.
Proof.
  revert b. induction a as [|x a IHa]; intros b;
    [by rewrite list_merge_nil_l|].
  induction b as [|y b IHb]; [apply sublist_nil_l|].
  rewrite list_merge_cons. case_decide.
  - apply sublist_cons, IHa.
  - by apply sublist_skip.
Qed.

(** X2. Whatever the order of the two arrays, [mergeEventsInOrder] returns a
    list that holds the events of both and nothing else, and in which the
    events of each array are in the order they had in it. *)
Theorem mergeEventsInOrder_interleaves a b :
  ∃ r, Trace.mergeEventsInOrder a b = Some r ∧
       r ≡ₚ a ++ b ∧
       length r = (length a + length b)%nat ∧
       a `sublist_of` r ∧ b `sublist_of` r.
Proof.
  exists (list_merge precedes a b).
  split; [apply mergeEventsInOrder_list_merge|].
  split; [apply merge_Permutation|].
  split; [by rewrite merge_Permutation, length_app|].
  split; [apply list_merge_sublist_l|apply list_merge_sublist_r].
Qed.

(** X3. The merge with an empty array gives back the other array. *)
Theorem mergeEventsInOrder_empty a :
  Trace.mergeEventsInOrder [] a = Some a ∧
  Trace.mergeEventsInOrder a [] = Some a.
Proof.
  rewrite !mergeEventsInOrder_list_merge.
  by rewrite list_merge_nil_l, list_merge_nil_r.
Qed.

(** An event put into the merge of two sorted lists lands where it lands
    when it is put into the first list before the merge. *)
Lemma sort_insert_merge_comm x a b :
  Sorted precedes a → Sorted precedes b →
  JS.sort_insert cmp x (list_merge precedes a b)
    = list_merge precedes (JS.sort_insert cmp x a) b.
Proof.
  intros Ha. revert b. induction Ha as [|y a Ha IHa Hy]; intros b Hb.
  - rewrite list_merge_nil_l. simpl.
    by rewrite <- (sort_insert_list_merge x [] b), list_merge_nil_l
      by (done || constructor).
  - destruct (decide (precedes x y)) as [Hxy|Hxy].
    + rewrite (sort_insert_front cmp x (y :: a)) by (by constructor).
      apply sort_insert_list_merge; [by constructor|done].
    + rewrite (sort_insert_skip cmp x y a Hxy).
      induction Hb as [|z b Hb IHb Hz].
      * rewrite !list_merge_nil_r. by apply sort_insert_skip.
      * rewrite !list_merge_cons. case_decide as Hyz.
        -- rewrite sort_insert_skip by done. f_equal. apply IHa.
           by constructor.
        -- rewrite sort_insert_skip; [by rewrite IHb|].
           intros Hxz. apply Hxy. etrans; [exact Hxz|].
           by destruct (total precedes z y).
Qed.

(** The stable sort of a concatenation is the merge of the sorted parts. *)
Lemma Array_sort_app a b :
  JS.Array_sort cmp (a ++ b)
    = list_merge precedes (JS.Array_sort cmp a) (JS.Array_sort cmp b).
Proof.
  induction a as [|x a IH]; simpl.
  - by rewrite list_merge_nil_l.
  - rewrite IH. apply sort_insert_merge_comm; apply Array_sort_sorted;
      apply comparator_total.
Qed.

(** X4. Sorting two batches of events apart and merging them is sorting
    them together. *)
Theorem sort_then_merge a b :
  Trace.mergeEventsInOrder (Trace.sortTraceEventsInPlace a)
    (Trace.sortTraceEventsInPlace b)
  = Some (Trace.sortTraceEventsInPlace (a ++ b)).
Proof.
  rewrite mergeEventsInOrder_list_merge. unfold Trace.sortTraceEventsInPlace.
  by rewrite Array_sort_app.
Qed.

(** X5. On arrays that obey the comparator the merge is associative: the
    merge of three arrays does not depend on the two that are merged
    first. *)
Theorem mergeEventsInOrder_assoc a b c :
  Trace.sortedEvents a → Trace.sortedEvents b → Trace.sortedEvents c →
  (Trace.mergeEventsInOrder a b ≫= λ ab, Trace.mergeEventsInOrder ab c)
  = (Trace.mergeEventsInOrder b c ≫= λ bc, Trace.mergeEventsInOrder a bc).
Proof.
  unfold Trace.sortedEvents. intros Ha Hb Hc.
  rewrite !mergeEventsInOrder_list_merge. simpl.
  rewrite !mergeEventsInOrder_list_merge. f_equal.
  rewrite <- (list_merge_Array_sort a b), <- (list_merge_Array_sort b c)
    by done.
  rewrite <- (Array_sort_fixpoint cmp c Hc) at 1.
  rewrite <- (Array_sort_fixpoint cmp a Ha) at 2.
  by rewrite <- !Array_sort_app, app_assoc.
Qed.
End ordering_more.

(** * More on the pairing of async events *)
Section pairing_more.
Import Trace TraceHelpers.
Implicit Types (event ev b e : Event.t) (events : list Event.t).
Implicit Types (key : string) (m : list (string * EventsPair.t)).
Implicit Types (s : Synthetic.t).

Lemma createSorted_perm m :
  createSortedSyntheticEvents m ≡ₚ omap pairOfEntry m.
Proof.
  unfold createSortedSyntheticEvents.
  by rewrite Array_sort_perm, synthetic_loop_omap.
Qed.

(** X6. The synthetic events come out with their start times in ascending
    order, and none of them has a negative duration. *)
Theorem createMatched_ascending events :
  (∀ (i j : nat) s1 s2, (i < j)%nat →
     createMatchedSortedSyntheticEvents events !! i = Some s1 →
     createMatchedSortedSyntheticEvents events !! j = Some s2 →
     Synthetic.ts s1 ≤ Synthetic.ts s2) ∧
  (∀ s, s ∈ createMatchedSortedSyntheticEvents events → 0 ≤ Synthetic.dur s).
Proof.
  split.
  - intros i j s1 s2 Hij H1 H2.
    pose (byStart := λ a b : Synthetic.t, Synthetic.ts a - Synthetic.ts b).
    assert (Hs : StronglySorted (JS.not_after byStart)
                   (createMatchedSortedSyntheticEvents events)).
    { apply Sorted_StronglySorted.
      - intros x y z. unfold JS.not_after, byStart. lia.
      - apply Array_sort_sorted. intros x y. unfold JS.not_after, byStart.
        lia. }
    pose proof (StronglySorted_lookup _ _ _ _ _ _ Hs Hij H1 H2) as Hle.
    unfold JS.not_after, byStart in Hle. lia.
  - intros s Hs%createMatched_elem.
    apply pairEvent_Some in Hs as (b & e & _ & _ & Hle & ->). simpl. lia.
Qed.

Lemma omap_pairs_ids m :
  Synthetic.id <$> omap pairOfEntry m `sublist_of` m.*1.
Proof.
  induction m as [|[k p] m IH]; [done|].
  cbn [omap list_omap]. rewrite fmap_cons. cbn [fst].
  destruct (pairOfEntry (k, p)) as [s|] eqn:Hs.
  - rewrite fmap_cons. apply pairEvent_id in Hs. cbn [fst] in Hs.
    rewrite Hs. by apply sublist_skip.
  - by apply sublist_cons.
Qed.

(** X7. No two of the synthetic events have the same id, and each of them
    is built from a begin event and an end event of the input whose key is
    its id: an event of the input is part of one synthetic event at most. *)
Theorem createMatched_distinct events :
  NoDup (Synthetic.id <$> createMatchedSortedSyntheticEvents events) ∧
  (∀ s, s ∈ createMatchedSortedSyntheticEvents events →
     let b := ArgsData.beginEvent (Args.data (Synthetic.args s)) in
     let e := ArgsData.endEvent (Args.data (Synthetic.args s)) in
     b ∈ events ∧ e ∈ events ∧
     Event.ph b = ASYNC_NESTABLE_START ∧ Event.ph e = ASYNC_NESTABLE_END ∧
     keyOf b = Some (Synthetic.id s) ∧ keyOf e = Some (Synthetic.id s)) ∧
  (∀ s1 s2, s1 ∈ createMatchedSortedSyntheticEvents events →
     s2 ∈ createMatchedSortedSyntheticEvents events →
     ArgsData.beginEvent (Args.data (Synthetic.args s1))
       = ArgsData.beginEvent (Args.data (Synthetic.args s2)) ∨
     ArgsData.endEvent (Args.data (Synthetic.args s1))
       = ArgsData.endEvent (Args.data (Synthetic.args s2)) →
     s1 = s2).
Proof.
  assert (Hparts : ∀ s, s ∈ createMatchedSortedSyntheticEvents events →
     let b := ArgsData.beginEvent (Args.data (Synthetic.args s)) in
     let e := ArgsData.endEvent (Args.data (Synthetic.args s)) in
     b ∈ events ∧ e ∈ events ∧
     Event.ph b = ASYNC_NESTABLE_START ∧ Event.ph e = ASYNC_NESTABLE_END ∧
     keyOf b = Some (Synthetic.id s) ∧ keyOf e = Some (Synthetic.id s)).
  { intros s Hs%createMatched_elem.
    apply pairEvent_Some in Hs as (b & e & Hb & He & _ & Hs).
    rewrite Hs. simpl. rewrite Hs in Hb, He. simpl in Hb, He.
    apply last_Some_elem_of, list_elem_of_filter in Hb as [[Hkb Hpb] Hb].
    apply last_Some_elem_of, list_elem_of_filter in He as [[Hke Hpe] He].
    done. }
  split; [|split; [done|]].
  - unfold createMatchedSortedSyntheticEvents.
    rewrite createSorted_perm.
    eapply sublist_NoDup; [|apply omap_pairs_ids].
    apply matchBeginningAndEndEvents_NoDup.
  - intros s1 s2 H1 H2 Hsame.
    assert (Hid : Synthetic.id s1 = Synthetic.id s2).
    { destruct (Hparts s1 H1) as (_ & _ & _ & _ & Hb1 & He1).
      destruct (Hparts s2 H2) as (_ & _ & _ & _ & Hb2 & He2).
      simpl in *. destruct Hsame as [Hsame|Hsame]; congruence. }
    apply createMatched_elem in H1, H2. rewrite Hid in H1. congruence.
Qed.

Lemma firstKeys_seen (seen1 seen2 : list string) events :
  (∀ k, k ∈ seen1 ↔ k ∈ seen2) →
  firstKeys seen1 events = firstKeys seen2 events.
Proof.
  revert seen1 seen2. induction events as [|ev events IH];
    intros seen1 seen2 Hseen; [done|].
  simpl. destruct (keyOf ev) as [k|]; [|by apply IH].
  destruct (decide (k ∈ seen1)) as [Hk|Hk].
  - rewrite decide_True by (by apply Hseen). by apply IH.
  - rewrite decide_False by (by rewrite <- Hseen). f_equal. apply IH.
    intros k'. rewrite !elem_of_cons, Hseen. done.
Qed.

Lemma match_step_keys m ev :
  (match_step m ev).*1 =
  match keyOf ev with
  | Some key => if decide (key ∈ m.*1) then m.*1 else m.*1 ++ [key]
  | None => m.*1
  end.
Proof.
  unfold keyOf, match_step, getWithDefault.
  destruct (extractId ev) as [id|]; [|done]. simpl.
  set (key := syntheticIdOf ev id).
  destruct (JS.Map_get m key) as [p|] eqn:Hget.
  - assert (Hin : key ∈ m.*1).
    { destruct (decide (key ∈ m.*1)) as [|Hn]; [done|].
      apply Map_get_None in Hn. congruence. }
    rewrite decide_True by done.
    repeat case_bool_decide; [| |done];
      rewrite Map_set_keys; by rewrite decide_True.
  - apply Map_get_None in Hget. rewrite decide_False by done.
    assert (Hnew : (JS.Map_set m key (EventsPair.mk None None)).*1
                   = m.*1 ++ [key]).
    { by rewrite Map_set_keys, decide_False. }
    assert (Hin : key ∈ m.*1 ++ [key]).
    { apply elem_of_app. right. by left. }
    repeat case_bool_decide; [| |done];
      rewrite Map_set_keys, Hnew; by rewrite decide_True.
Qed.

Lemma match_loop_keys m events :
  (foldl match_step m events).*1 = m.*1 ++ firstKeys m.*1 events.
Proof.
  revert m. induction events as [|ev events IH]; intros m; simpl.
  - by rewrite app_nil_r.
  - rewrite IH, match_step_keys. destruct (keyOf ev) as [key|]; [|done].
    case_decide as Hin; [done|].
    rewrite <- app_assoc. simpl. do 2 f_equal. apply firstKeys_seen.
    intros k. rewrite elem_of_app, !elem_of_cons, elem_of_nil. tauto.
Qed.

(** X8. The keys of the map of matched pairs are the keys of the events of
    the input, each one once, in the order in which they come up first. *)
Theorem matchBeginningAndEndEvents_keys events :
  (matchBeginningAndEndEvents events).*1 = firstKeys [] events.
Proof. unfold matchBeginningAndEndEvents. by rewrite match_loop_keys. Qed.

Lemma string_app_cons (c : ascii) (s1 s2 : string) :
  String c s1 +:+ s2 = String c (s1 +:+ s2).
Proof. done. Qed.

Lemma string_app_nil (s : string) : "" +:+ s = s.
Proof. done. Qed.

Lemma string_app_assoc (s1 s2 s3 : string) :
  (s1 +:+ s2) +:+ s3 = s1 +:+ s2 +:+ s3.
Proof.
  induction s1 as [|c s1 IH]; [done|]. by rewrite !string_app_cons, IH.
Qed.

Lemma string_length_app (s1 s2 : string) :
  String.length (s1 +:+ s2) = (String.length s1 + String.length s2)%nat.
Proof.
  induction s1 as [|c s1 IH]; [done|]. rewrite string_app_cons. simpl.
  by rewrite IH.
Qed.

(** X9. The key does not keep the identifier and the name apart when they
    hold colons: a begin event with the identifier [i] and the name [p:n]
    and an end event of the same category with the identifier [i:p] and the
    name [n] have the same key, and are paired although their names
    differ. *)
Theorem key_collision b e (i prefix : string) :
  Event.ph b = ASYNC_NESTABLE_START →
  Event.ph e = ASYNC_NESTABLE_END →
  Event.cat b = Event.cat e →
  extractId b = Some i →
  extractId e = Some (i +:+ ":" +:+ prefix) →
  Event.name b = prefix +:+ ":" +:+ Event.name e →
  Event.ts b ≤ Event.ts e →
  keyOf b = keyOf e ∧
  Event.name b ≠ Event.name e ∧
  ∃ s, createMatchedSortedSyntheticEvents [b; e] = [s] ∧
       ArgsData.beginEvent (Args.data (Synthetic.args s)) = b ∧
       ArgsData.endEvent (Args.data (Synthetic.args s)) = e.
Proof.
  intros Hpb Hpe Hcat Hib Hie Hname Hts.
  assert (Hkey : keyOf b = keyOf e).
  { unfold keyOf, syntheticIdOf. rewrite Hib, Hie, Hname, Hcat. simpl.
    by rewrite !string_app_assoc. }
  split; [done|]. split.
  { rewrite Hname. intros Heq.
    apply (f_equal String.length) in Heq.
    rewrite !string_length_app in Heq. simpl in Heq. lia. }
  destruct (keyOf b) as [key|] eqn:Hkb;
    [|unfold keyOf in Hkb; by rewrite Hib in Hkb].
  exists (makeSynthetic key b e). split; [|done].
  rewrite (createMatched_single_key key) by (repeat constructor; done).
  rewrite emittedFor_last. unfold beginsOf, endsOf.
  rewrite !filter_cons, !filter_nil.
  rewrite (decide_True (P := keyOf b = _ ∧ Event.ph b = ASYNC_NESTABLE_START))
    by done.
  rewrite (decide_True (P := keyOf e = _ ∧ Event.ph e = ASYNC_NESTABLE_END))
    by done.
  rewrite (decide_False (P := keyOf b = _ ∧ Event.ph b = ASYNC_NESTABLE_END))
    by (intros [_ ?]; congruence).
  rewrite (decide_False (P := keyOf e = _ ∧ Event.ph e = ASYNC_NESTABLE_START))
    by (intros [_ ?]; congruence).
  simpl. by rewrite bool_decide_eq_false_2 by lia.
Qed.

Lemma colonFree_split (s1 s2 r1 r2 : string) :
  colonFree s1 → colonFree s2 →
  s1 +:+ ":" +:+ r1 = s2 +:+ ":" +:+ r2 → s1 = s2 ∧ r1 = r2.
Proof.
  revert s2. induction s1 as [|c1 s1 IH]; intros [|c2 s2] H1 H2 Heq;
    repeat (rewrite string_app_cons in Heq || rewrite string_app_nil in Heq);
    simpl in H1, H2.
  - by injection Heq as ->.
  - injection Heq as <- _. by destruct H2.
  - injection Heq as -> _. by destruct H1.
  - injection Heq as -> Heq. destruct H1 as [_ H1], H2 as [_ H2].
    destruct (IH s2 H1 H2 Heq) as [-> ->]. done.
Qed.

(** X10. Among events whose category and identifier hold no colon the key
    keeps operations apart: two events with the same key have the same
    category, the same identifier and the same name. *)
Theorem key_injective e1 e2 i1 i2 :
  extractId e1 = Some i1 → extractId e2 = Some i2 →
  colonFree (Event.cat e1) → colonFree (Event.cat e2) →
  colonFree i1 → colonFree i2 →
  keyOf e1 = keyOf e2 →
  Event.cat e1 = Event.cat e2 ∧ i1 = i2 ∧ Event.name e1 = Event.name e2.
Proof.
  intros H1 H2 Hc1 Hc2 Hi1 Hi2. unfold keyOf, syntheticIdOf.
  rewrite H1, H2. simpl. intros [= Heq].
  apply colonFree_split in Heq as [Hcat Heq]; [|done..].
  apply colonFree_split in Heq as [Hid Hname]; done.
Qed.

(** X11. The events of the input that are neither a begin nor an end have
    no part in what the pairing gives out for a key. *)
Theorem other_phases_ignored events key :
  emittedFor key
    (filter (λ ev, Event.ph ev = ASYNC_NESTABLE_START ∨
                   Event.ph ev = ASYNC_NESTABLE_END) events)
  = emittedFor key events.
Proof.
  rewrite !emittedFor_last. unfold beginsOf, endsOf.
  rewrite !list_filter_filter.
  do 2 f_equal; f_equal; apply list_filter_iff; intros ev; tauto.
Qed.
End pairing_more.

(** * The other helpers of the trace model *)
Section helpers_more.
Import Trace TraceHelpers.
Implicit Types (event ev : Event.t) (events : list Event.t) (pid tid : Z).
Implicit Types (m : gmap Z (gmap Z (list Event.t))).

Lemma addEventToProcessThread_thread ev m pid tid :
  eventsOfThread (addEventToProcessThread ev m) pid tid =
  eventsOfThread m pid tid ++
    (if decide (Event.pid ev = pid ∧ Event.tid ev = tid) then [ev] else []).
Proof.
  unfold eventsOfThread, addEventToProcessThread.
  destruct (decide (Event.pid ev = pid)) as [<-|Hpid].
  - rewrite lookup_insert_eq. simpl.
    destruct (decide (Event.tid ev = tid)) as [<-|Htid].
    + rewrite lookup_insert_eq, decide_True by done. simpl.
      destruct (m !! Event.pid ev) as [threads|]; simpl; [|done].
      by destruct (threads !! Event.tid ev).
    + rewrite lookup_insert_ne by done.
      rewrite decide_False by (by intros [_ ?]). rewrite app_nil_r.
      destruct (m !! Event.pid ev) as [threads|]; simpl; [done|].
      by rewrite lookup_empty.
  - rewrite lookup_insert_ne by done.
    rewrite decide_False by (by intros [? _]). by rewrite app_nil_r.
Qed.

(** No array of the map is empty. *)
Lemma addEventToProcessThread_filled ev m :
  (∀ p t i l, m !! p = Some t → t !! i = Some l → l ≠ []) →
  ∀ p t i l, addEventToProcessThread ev m !! p = Some t →
             t !! i = Some l → l ≠ [].
Proof.
  intros Hm p t i l. unfold addEventToProcessThread.
  destruct (decide (Event.pid ev = p)) as [<-|Hp].
  - rewrite lookup_insert_eq. intros [= <-].
    destruct (decide (Event.tid ev = i)) as [<-|Hi].
    + rewrite lookup_insert_eq. intros [= <-]. by intros [_ ?]%app_nil.
    + rewrite lookup_insert_ne by done.
      destruct (m !! Event.pid ev) as [t|] eqn:Hmp; [by eapply Hm|].
      by rewrite lookup_empty.
  - rewrite lookup_insert_ne by done. by eapply Hm.
Qed.

Lemma addEventsToProcessThread_filled events m :
  (∀ p t i l, m !! p = Some t → t !! i = Some l → l ≠ []) →
  ∀ p t i l, addEventsToProcessThread events m !! p = Some t →
             t !! i = Some l → l ≠ [].
Proof.
  unfold addEventsToProcessThread. revert m.
  induction events as [|ev events IH]; intros m Hm; simpl; [done|].
  by apply IH, addEventToProcessThread_filled.
Qed.

(** X12. Filing the events of a list one after the other groups them by
    process and thread: under a process and a thread the map holds what it
    held before, followed by the events of the list with this process and
    this thread, in the order of the list.  Started from the empty map, a
    process and a thread have an entry exactly when an event of the list
    belongs to them. *)
Theorem addEventsToProcessThread_groups events m pid tid :
  eventsOfThread (addEventsToProcessThread events m) pid tid =
    eventsOfThread m pid tid ++
    filter (λ ev, Event.pid ev = pid ∧ Event.tid ev = tid) events ∧
  (is_Some (addEventsToProcessThread events ∅ !! pid ≫= λ t, t !! tid) ↔
   ∃ ev, ev ∈ events ∧ Event.pid ev = pid ∧ Event.tid ev = tid).
Proof.
  assert (Hgroups : ∀ m,
    eventsOfThread (addEventsToProcessThread events m) pid tid =
    eventsOfThread m pid tid ++
    filter (λ ev, Event.pid ev = pid ∧ Event.tid ev = tid) events).
  { clear m. unfold addEventsToProcessThread.
    induction events as [|ev events IH]; intros m; simpl.
    - by rewrite app_nil_r.
    - rewrite IH, addEventToProcessThread_thread, filter_cons.
      case_decide; by rewrite <- app_assoc. }
  split; [apply Hgroups|].
  specialize (Hgroups ∅). unfold eventsOfThread in Hgroups.
  rewrite lookup_empty in Hgroups. simpl in Hgroups.
  split.
  - intros [l Hl].
    destruct (addEventsToProcessThread events ∅ !! pid) as [t|] eqn:Ht;
      [|done].
    simpl in Hl, Hgroups. rewrite Hl in Hgroups. simpl in Hgroups.
    assert (l ≠ []) as Hne.
    { eapply (addEventsToProcessThread_filled events ∅); [|done..].
      intros p t' i l'. by rewrite lookup_empty. }
    destruct l as [|ev l]; [done|].
    assert (Hin : ev ∈ filter (λ ev, Event.pid ev = pid ∧ Event.tid ev = tid)
                         events) by (rewrite <- Hgroups; by left).
    apply list_elem_of_filter in Hin as [[Hp Ht'] Hin]. by exists ev.
  - intros (ev & Hin & Hp & Ht).
    destruct (addEventsToProcessThread events ∅ !! pid ≫= λ t, t !! tid)
      as [l|]; [by eexists|].
    simpl in Hgroups. symmetry in Hgroups.
    assert (ev ∈ filter (λ ev, Event.pid ev = pid ∧ Event.tid ev = tid) events)
      as Hf by (by apply list_elem_of_filter).
    rewrite Hgroups in Hf. by apply elem_of_nil in Hf.
Qed.

Lemma searchProcessInfos_first time (processes : list ProcessInfo.t) :
  searchProcessInfos time processes
    = ProcessInfo.url <$> head (filter (inWindow time) processes).
Proof.
  induction processes as [|p processes IH]; [done|].
  simpl. rewrite filter_cons.
  destruct (decide (inWindow time p)) as [[Hmin Hmax]|Hout].
  - rewrite !bool_decide_eq_false_2 by lia. done.
  - rewrite IH. unfold inWindow in Hout. case_bool_decide; [done|].
    rewrite bool_decide_eq_true_2; [done|]. lia.
Qed.

Lemma searchProcesses_first time (values : list (list ProcessInfo.t)) :
  searchProcesses time values
    = ProcessInfo.url <$> head (filter (inWindow time) (concat values)).
Proof.
  induction values as [|processes values IH]; [done|].
  simpl. rewrite searchProcessInfos_first, filter_app, IH.
  by destruct (filter (inWindow time) processes).
Qed.

Lemma elem_of_concat {A} (x : A) (ls : list (list A)) :
  x ∈ concat ls ↔ ∃ l, x ∈ l ∧ l ∈ ls.
Proof.
  induction ls as [|l ls IH]; simpl.
  - split; [by intros ?%elem_of_nil|]. by intros (l & _ & ?%elem_of_nil).
  - rewrite elem_of_app, IH. split.
    + intros [Hx|(l' & Hx & Hl')].
      * exists l. split; [done|]. by left.
      * exists l'. split; [done|]. by right.
    + intros (l' & Hx & [->|Hl']%elem_of_cons); [by left|].
      right. by exists l'.
Qed.

(** X13. [activeURLForFrameAtTime] answers with the url of the first process
    entry of the frame whose window holds the time, where the processes come
    in the order of their insertion and the entries of a process in the order
    of its array.  The answer is [null] exactly when the frame is unknown or
    no window of the frame holds the time. *)
Theorem activeURLForFrameAtTime_first frameId time
    (rendererProcessesByFrame : gmap string (list (Z * list ProcessInfo.t))) :
  activeURLForFrameAtTime frameId time rendererProcessesByFrame =
    (rendererProcessesByFrame !! frameId ≫= λ processData,
       ProcessInfo.url <$>
         head (filter (inWindow time) (concat processData.*2))) ∧
  (activeURLForFrameAtTime frameId time rendererProcessesByFrame = None ↔
   ∀ processData, rendererProcessesByFrame !! frameId = Some processData →
     ∀ pid processes processInfo,
       (pid, processes) ∈ processData → processInfo ∈ processes →
       ¬ inWindow time processInfo).
Proof.
  assert (Heq : activeURLForFrameAtTime frameId time rendererProcessesByFrame =
    (rendererProcessesByFrame !! frameId ≫= λ processData,
       ProcessInfo.url <$>
         head (filter (inWindow time) (concat processData.*2)))).
  { unfold activeURLForFrameAtTime.
    destruct (rendererProcessesByFrame !! frameId) as [processData|];
      [|done].
    apply searchProcesses_first. }
  split; [done|]. rewrite Heq.
  destruct (rendererProcessesByFrame !! frameId) as [processData|]; simpl.
  - rewrite fmap_None, head_None. split.
    + intros Hnil d [= <-] pid processes p Hin Hp Hw.
      assert (p ∈ filter (inWindow time) (concat processData.*2)) as Hf.
      { apply list_elem_of_filter. split; [done|].
        apply elem_of_concat. exists processes. split; [done|].
        apply list_elem_of_fmap. by exists (pid, processes). }
      rewrite Hnil in Hf. by apply elem_of_nil in Hf.
    + intros Hnone. apply filter_none. intros p Hp Hw.
      apply elem_of_concat in Hp as (processes & Hp & Hin).
      apply list_elem_of_fmap in Hin as ([pid ps] & -> & Hin).
      by apply (Hnone processData eq_refl pid ps p).
  - split; [|done]. by intros _ d.
Qed.

(** X14. Whatever index the search gives, a navigation that
    [getNavigationForTraceEvent] returns is one of the navigations that are
    filed under the frame of the event, and an event with the empty frame id
    gets no navigation, also when navigations are filed under the empty
    id. *)
Theorem getNavigationForTraceEvent_of_frame
    (nearestIndexFromEnd : list Event.t → (Event.t → bool) → option nat)
    event (eventFrameId : string)
    (navigationsByFrameId : gmap string (list Event.t)) :
  (eventFrameId = "" →
   getNavigationForTraceEvent nearestIndexFromEnd event eventFrameId
     navigationsByFrameId = None) ∧
  (navigationsByFrameId !! eventFrameId = None →
   getNavigationForTraceEvent nearestIndexFromEnd event eventFrameId
     navigationsByFrameId = None) ∧
  (∀ navigation,
     getNavigationForTraceEvent nearestIndexFromEnd event eventFrameId
       navigationsByFrameId = Some navigation →
     eventFrameId ≠ "" ∧
     ∃ navigations, navigationsByFrameId !! eventFrameId = Some navigations ∧
                    navigation ∈ navigations).
Proof.
  unfold getNavigationForTraceEvent. split; [|split].
  - intros ->. by destruct (navigationsByFrameId !! "").
  - by intros ->.
  - intros navigation.
    destruct (navigationsByFrameId !! eventFrameId) as [navigations|];
      [|done].
    case_bool_decide; [done|].
    destruct (nearestIndexFromEnd _ _) as [index|]; [|done].
    intros Hnav. split; [done|]. exists navigations. split; [done|].
    by eapply list_elem_of_lookup_2.
Qed.
End helpers_more.

(** * More on the tree manipulator *)

(** ** The list of active actions *)
Section actions_more.
Import TreeManipulator.
Implicit Types (this : t) (action a : Action.t) (e : RendererEntry).

Lemma matchesAction_eq action a :
  matchesAction action a = bool_decide (a = action).
Proof.
  unfold matchesAction. destruct a as [t1 e1], action as [t2 e2]. simpl.
  repeat case_bool_decide; simpl; congruence.
Qed.

Lemma actionIsActive_elem this action :
  actionIsActive this action = true ↔ action ∈ activeActions this.
Proof.
  rewrite actionIsActive_true. split.
  - intros (a & Ha & Ht & He). destruct a, action. simpl in *. by subst.
  - intros Ha. by exists action.
Qed.

Lemma removeActiveAction_elem this action a :
  a ∈ activeActions (removeActiveAction this action) ↔
  a ∈ activeActions this ∧ a ≠ action.
Proof.
  simpl. rewrite list_elem_of_In, filter_In, <- list_elem_of_In.
  rewrite matchesAction_eq, negb_true_iff, bool_decide_eq_false. done.
Qed.

Lemma List_filter_sublist {A} (f : A → bool) (l : list A) :
  List.filter f l `sublist_of` l.
Proof.
  induction l as [|x l IH]; [done|]. simpl.
  destruct (f x); [by apply sublist_skip|by apply sublist_cons].
Qed.

(** X15. No action is twice in the list of active actions: after any calls
    of the methods no two active actions have the same tag and the same
    entry. *)
Theorem activeActions_NoDup thread entryToNode0 this :
  reachable thread entryToNode0 this → NoDup (activeActions this).
Proof.
  induction 1 as [|this action _ IH|this action _ IH
                  |this fuel visible this' _ IH Hv].
  - apply NoDup_nil_2.
  - unfold applyAction. destruct (actionIsActive this action) eqn:Hact;
      [done|].
    simpl. apply NoDup_app. split; [done|]. split; [|apply NoDup_singleton].
    intros a Ha ->%list_elem_of_singleton.
    apply actionIsActive_elem in Ha. congruence.
  - simpl. eapply sublist_NoDup; [exact IH|apply List_filter_sublist].
  - by destruct (visibleEntries_fields _ _ _ _ Hv) as (_ & _ & ->).
Qed.

(** X16. After [applyAction] the action is active and after
    [removeActiveAction] it is not; a second call of either method with the
    same action changes nothing. *)
Theorem applyAction_removeActiveAction_twice this action :
  actionIsActive (applyAction this action) action = true ∧
  actionIsActive (removeActiveAction this action) action = false ∧
  applyAction (applyAction this action) action = applyAction this action ∧
  removeActiveAction (removeActiveAction this action) action
    = removeActiveAction this action.
Proof.
  assert (H1 : actionIsActive (applyAction this action) action = true).
  { unfold applyAction. destruct (actionIsActive this action) eqn:Hact;
      [done|].
    apply actionIsActive_elem. simpl. apply elem_of_app. right. by left. }
  assert (H2 : action ∉ activeActions (removeActiveAction this action)).
  { rewrite removeActiveAction_elem. by intros [_ ?]. }
  split; [done|]. split; [|split].
  - apply not_true_iff_false. by rewrite actionIsActive_elem.
  - by apply applyAction_active.
  - apply removeActiveAction_absent. intros a Ha [Ht He].
    apply H2. destruct a, action. simpl in *. by subst.
Qed.

(** X17. Removing an action right after it was applied gives back the list
    of active actions as it was before, but not the cache: the cache is
    empty afterwards, whatever it held before. *)
Theorem applyAction_removeActiveAction_undo this action :
  actionIsActive this action = false →
  removeActiveAction (applyAction this action) action
    = mk (thread this) (entryToNode this) None (activeActions this).
Proof.
  intros Hact. unfold applyAction. rewrite Hact.
  unfold removeActiveAction. simpl.
  assert (Hno : action ∉ activeActions this).
  { rewrite <- actionIsActive_elem. by rewrite Hact. }
  rewrite existsb_app, List.filter_app. simpl.
  rewrite matchesAction_eq, bool_decide_eq_true_2 by done. simpl.
  rewrite orb_true_r, app_nil_r. f_equal.
  apply matchesAction_none. intros a Ha [Ht He]. apply Hno.
  destruct a, action. simpl in *. by subst.
Qed.

(** X18. [visibleEntries] is cached: once a call has returned, every later
    call on the object it has left returns the same list and leaves the
    object as it is, with any fuel, so without a walk through the tree. *)
Theorem visibleEntries_again this fuel visible this' :
  visibleEntries fuel this = Some (visible, this') →
  ∀ fuel', visibleEntries fuel' this' = Some (visible, this').
Proof.
  unfold visibleEntries, calculateVisibleEntries.
  case_bool_decide as Hlen.
  { intros [= <- <-] fuel'. by rewrite bool_decide_eq_true_2. }
  destruct (lastVisibleEntries this) as [cached|] eqn:Hc.
  { intros [= <- <-] fuel'. rewrite bool_decide_eq_false_2 by done.
    by rewrite Hc. }
  destruct (Thread.tree (thread this)) as [tree|] eqn:Htree.
  2: { intros [= <- <-] fuel'. rewrite bool_decide_eq_false_2 by done.
       by rewrite Hc, Htree. }
  destruct (hide_loop _ _ _ _ _) as [hidden|]; [|done]. simpl.
  intros [= <- <-] fuel'. simpl. by rewrite bool_decide_eq_false_2.
Qed.

Lemma reachable_cache_sublist thread entryToNode0 this :
  reachable thread entryToNode0 this →
  ∀ cached, lastVisibleEntries this = Some cached →
            cached `sublist_of` Thread.entries thread.
Proof.
  induction 1 as [|this action Hr IH|this action Hr IH
                  |this fuel visible this' Hr IH Hv]; simpl.
  - done.
  - unfold applyAction. by destruct (actionIsActive this action).
  - by destruct (existsb _ _).
  - destruct (reachable_fields _ _ _ Hr) as [Hth _].
    unfold visibleEntries, calculateVisibleEntries in Hv.
    case_bool_decide; [by injection Hv as _ <-|].
    destruct (lastVisibleEntries this) as [cached|] eqn:Hc;
      [injection Hv as _ <-; by rewrite Hc|].
    destruct (Thread.tree (TreeManipulator.thread this));
      [|injection Hv as _ <-; by rewrite Hc].
    destruct (hide_loop _ _ _ _ _); [|done]. simpl in Hv.
    injection Hv as _ <-. simpl. intros cached' [= <-]. rewrite Hth.
    apply List_filter_sublist.
Qed.

(** X19. Whatever the actions, the tree and the index are, the list that
    [visibleEntries] returns is made of entries of the thread, in the order
    of the thread, each as often at most as the thread has it: the call
    adds no entry and moves none. *)
Theorem visibleEntries_sublist thread entryToNode0 this fuel visible this' :
  reachable thread entryToNode0 this →
  visibleEntries fuel this = Some (visible, this') →
  visible `sublist_of` Thread.entries thread.
Proof.
  intros Hr Hv.
  assert (Hr' : reachable thread entryToNode0 this')
    by (by eapply reachable_visibleEntries).
  destruct (decide (activeActions this = [])) as [Hnil|Hact].
  - unfold visibleEntries in Hv. rewrite Hnil in Hv. simpl in Hv.
    injection Hv as <- _.
    by destruct (reachable_fields _ _ _ Hr) as [-> _].
  - destruct (lastVisibleEntries this') as [cached|] eqn:Hc.
    + pose proof (visibleEntries_again _ _ _ _ Hv 0) as Hv'.
      destruct (visibleEntries_fields _ _ _ _ Hv) as (_ & _ & Hacts).
      rewrite (visibleEntries_cached this' cached 0) in Hv'
        by (by rewrite ?Hacts).
      injection Hv' as <-.
      by apply (reachable_cache_sublist _ _ _ Hr').
    + unfold visibleEntries, calculateVisibleEntries in Hv.
      rewrite bool_decide_eq_false_2 in Hv by (by destruct (activeActions this)).
      destruct (lastVisibleEntries this) as [cached|] eqn:Hc0.
      { injection Hv as _ <-. congruence. }
      destruct (Thread.tree (TreeManipulator.thread this)).
      * destruct (hide_loop _ _ _ _ _); [|done]. simpl in Hv.
        injection Hv as _ <-. done.
      * injection Hv as <- _.
        by destruct (reachable_fields _ _ _ Hr) as [-> _].
Qed.
End actions_more.

(** ** The walk and the id 0 *)
Section walk_more.
Import TreeManipulator.
Context (tree : Tree.t).
Implicit Types (id c : N) (queue ids : list N) (n m d : Node.t).

Lemma findAllAncestors_loop_falsy fuel ids queue ancestors :
  Forall (λ c, c ≠ 0%N) ids → (length ids < fuel)%nat →
  findAllAncestors_loop fuel tree (ids ++ 0%N :: queue) ancestors
  = Some (ancestors ++
          omap (λ id, Node.entry <$> Tree.nodes tree !! id) ids).
Proof.
  revert fuel queue ancestors.
  induction ids as [|id ids IH]; intros fuel queue ancestors Hids Hfuel;
    (destruct fuel as [|fuel]; [simpl in Hfuel; lia|]);
    rewrite findAllAncestors_loop_unfold; simpl.
  - by rewrite app_nil_r.
  - apply Forall_cons in Hids as [Hid Hids].
    rewrite bool_decide_eq_false_2 by done.
    simpl in Hfuel.
    destruct (Tree.nodes tree !! id) as [n|]; simpl.
    + rewrite <- app_assoc. simpl. rewrite IH by (done || lia).
      by rewrite <- app_assoc.
    + apply IH; [done|lia].
Qed.

(** X20. The id 0 ends the walk below a node: when 0 is among the child ids
    of the node, the walk returns the entries of the nodes of the child ids
    before it and nothing else.  The child ids after the 0 and the children
    of the nodes before it are left out. *)
Theorem findAllAncestorsOfNode_falsy_id fuel root ids queue :
  Node.childrenIds root = ids ++ 0%N :: queue →
  Forall (λ c, c ≠ 0%N) ids → (length ids < fuel)%nat →
  findAllAncestorsOfNode fuel tree root
  = Some (omap (λ id, Node.entry <$> Tree.nodes tree !! id) ids).
Proof.
  intros Hroot Hids Hfuel. unfold findAllAncestorsOfNode.
  rewrite Hroot. by rewrite findAllAncestors_loop_falsy.
Qed.
End walk_more.

(** ** The visible entries and the set of active actions *)
Section visibility_more.
Import TreeManipulator.
Context (thread0 : Thread.t) (entryToNode0 : gmap RendererEntry Node.t).
Context (tree : Tree.t).
Hypothesis has_tree : Thread.tree thread0 = Some tree.
Hypothesis well_formed : wellFormed tree entryToNode0.
Implicit Types (this : t) (action a : Action.t) (e : RendererEntry).
Implicit Types (hidden : gset RendererEntry) (n d : Node.t).

Lemma entriesOutside_mono this1 this2 hidden1 hidden2 :
  thread this1 = thread this2 → hidden1 ⊆ hidden2 →
  entriesOutside this2 hidden2 `sublist_of` entriesOutside this1 hidden1.
Proof.
  intros Hth Hsub. unfold entriesOutside. rewrite Hth.
  induction (Thread.entries (thread this2)) as [|e l IH]; [done|]. simpl.
  destruct (decide (e ∈ hidden2)) as [H2|H2].
  - rewrite (bool_decide_eq_false_2 (e ∉ hidden2)) by (by intros ?).
    case_bool_decide; [by apply sublist_cons|done].
  - rewrite (bool_decide_eq_true_2 (e ∉ hidden2)) by done.
    rewrite bool_decide_eq_true_2; [by apply sublist_skip|].
    intros H1. by apply H2, Hsub.
Qed.

Lemma hiddenSet_mono this1 this2 hidden1 hidden2 :
  entryToNode this1 = entryToNode this2 →
  (∀ a, a ∈ activeActions this1 → a ∈ activeActions this2) →
  hiddenSet this1 tree hidden1 → hiddenSet this2 tree hidden2 →
  hidden1 ⊆ hidden2.
Proof.
  intros Hidx Hsub H1 H2 e (a & Ha & Hh)%H1. apply H2. exists a.
  split; [by apply Hsub|]. by rewrite <- Hidx.
Qed.

Lemma visibleEntries_spec_two this1 this2 :
  reachable thread0 entryToNode0 this1 →
  reachable thread0 entryToNode0 this2 →
  ∃ fuel0, ∀ fuel, (fuel0 ≤ fuel)%nat →
    ∃ hidden1 hidden2 this1' this2',
      visibleEntries fuel this1
        = Some (entriesOutside this1 hidden1, this1') ∧
      visibleEntries fuel this2
        = Some (entriesOutside this2 hidden2, this2') ∧
      hiddenSet this1 tree hidden1 ∧ hiddenSet this2 tree hidden2.
Proof.
  intros Hr1 Hr2.
  destruct (visibleEntries_spec _ _ _ has_tree well_formed _ Hr1)
    as [fuel1 H1].
  destruct (visibleEntries_spec _ _ _ has_tree well_formed _ Hr2)
    as [fuel2 H2].
  exists (max fuel1 fuel2). intros fuel Hfuel.
  destruct (H1 fuel) as (hidden1 & this1' & Hv1 & Hs1); [lia|].
  destruct (H2 fuel) as (hidden2 & this2' & Hv2 & Hs2); [lia|].
  by exists hidden1, hidden2, this1', this2'.
Qed.

(** X21. On a thread with a well-formed tree the cache is never stale:
    after any calls of the methods [visibleEntries] returns, with enough
    fuel, the entries of the thread that no active action hides, and only
    these. *)
Theorem visibleEntries_never_stale this :
  reachable thread0 entryToNode0 this →
  ∃ fuel0, ∀ fuel, (fuel0 ≤ fuel)%nat →
    ∃ visible this',
      visibleEntries fuel this = Some (visible, this') ∧
      ∀ e, e ∈ visible ↔
           e ∈ Thread.entries thread0 ∧
           ∀ a, a ∈ activeActions this → ¬ hiddenBy entryToNode0 tree a e.
Proof.
  intros Hr. destruct (reachable_fields _ _ _ Hr) as [Hth Hidx].
  destruct (visibleEntries_spec _ _ _ has_tree well_formed _ Hr)
    as [fuel0 Hspec].
  exists fuel0. intros fuel Hfuel.
  destruct (Hspec fuel Hfuel) as (hidden & this' & Hv & Hset).
  exists (entriesOutside this hidden), this'. split; [done|].
  intros e. rewrite elem_of_entriesOutside, Hth, (Hset e), Hidx. split.
  - intros [He Hnot]. split; [done|]. intros a Ha Hh. apply Hnot.
    by exists a.
  - intros [He Hnot]. split; [done|]. intros (a & Ha & Hh).
    by apply (Hnot a).
Qed.

(** X22. More actions hide more: when every active action of one
    manipulator of the thread is active in another one, what the other one
    shows is a sublist of what the first one shows.  So [applyAction] never
    brings an entry back and [removeActiveAction] never hides one. *)
Theorem visibleEntries_monotone this1 this2 :
  reachable thread0 entryToNode0 this1 →
  reachable thread0 entryToNode0 this2 →
  (∀ a, a ∈ activeActions this1 → a ∈ activeActions this2) →
  ∃ fuel0, ∀ fuel, (fuel0 ≤ fuel)%nat →
    ∃ visible1 visible2 this1' this2',
      visibleEntries fuel this1 = Some (visible1, this1') ∧
      visibleEntries fuel this2 = Some (visible2, this2') ∧
      visible2 `sublist_of` visible1.
Proof.
  intros Hr1 Hr2 Hsub.
  destruct (reachable_fields _ _ _ Hr1) as [Hth1 Hidx1].
  destruct (reachable_fields _ _ _ Hr2) as [Hth2 Hidx2].
  destruct (visibleEntries_spec_two _ _ Hr1 Hr2) as [fuel0 Hspec].
  exists fuel0. intros fuel Hfuel.
  destruct (Hspec fuel Hfuel)
    as (hidden1 & hidden2 & this1' & this2' & Hv1 & Hv2 & Hs1 & Hs2).
  exists (entriesOutside this1 hidden1), (entriesOutside this2 hidden2),
    this1', this2'.
  split; [done|]. split; [done|].
  apply entriesOutside_mono; [congruence|].
  apply (hiddenSet_mono this1 this2); [congruence|done..].
Qed.

(** X23. The order in which the actions were applied does not matter: two
    manipulators of the thread with the same active actions show the same
    list. *)
Theorem visibleEntries_order_independent this1 this2 :
  reachable thread0 entryToNode0 this1 →
  reachable thread0 entryToNode0 this2 →
  activeActions this1 ≡ₚ activeActions this2 →
  ∃ fuel0, ∀ fuel, (fuel0 ≤ fuel)%nat →
    ∃ visible this1' this2',
      visibleEntries fuel this1 = Some (visible, this1') ∧
      visibleEntries fuel this2 = Some (visible, this2').
Proof.
  intros Hr1 Hr2 Hperm.
  destruct (reachable_fields _ _ _ Hr1) as [Hth1 Hidx1].
  destruct (reachable_fields _ _ _ Hr2) as [Hth2 Hidx2].
  destruct (visibleEntries_spec_two _ _ Hr1 Hr2) as [fuel0 Hspec].
  exists fuel0. intros fuel Hfuel.
  destruct (Hspec fuel Hfuel)
    as (hidden1 & hidden2 & this1' & this2' & Hv1 & Hv2 & Hs1 & Hs2).
  exists (entriesOutside this1 hidden1), this1', this2'.
  split; [done|]. rewrite Hv2. do 2 f_equal.
  assert (hidden1 = hidden2) as ->.
  { apply (anti_symm (⊆)).
    - apply (hiddenSet_mono this1 this2); [congruence| |done..].
      intros a. by rewrite Hperm.
    - apply (hiddenSet_mono this2 this1); [congruence| |done..].
      intros a. by rewrite Hperm. }
  unfold entriesOutside. congruence.
Qed.

(** X24. A collapse below a collapse changes nothing: when an entry is
    collapsed and the entry of one of the strict descendants of its node is
    collapsed as well, the visible entries are the same as before. *)
Theorem nested_collapse_absorbed this outer entry n d :
  reachable thread0 entryToNode0 this →
  outer ∈ activeActions this →
  Action.type outer = COLLAPSE_FUNCTION →
  entryToNode0 !! Action.entry outer = Some n →
  entryToNode0 !! entry = Some d →
  descendantOf tree d n →
  ∃ fuel0, ∀ fuel, (fuel0 ≤ fuel)%nat →
    ∃ visible this1 this2,
      visibleEntries fuel this = Some (visible, this1) ∧
      visibleEntries fuel
        (applyAction this (Action.mk COLLAPSE_FUNCTION entry))
        = Some (visible, this2).
Proof.
  intros Hr Houter Htype Hn Hd Hdesc.
  set (inner := Action.mk COLLAPSE_FUNCTION entry).
  assert (Hr2 : reachable thread0 entryToNode0 (applyAction this inner))
    by (by apply reachable_applyAction).
  destruct (reachable_fields _ _ _ Hr) as [Hth1 Hidx1].
  destruct (reachable_fields _ _ _ Hr2) as [Hth2 Hidx2].
  destruct (visibleEntries_spec_two _ _ Hr Hr2) as [fuel0 Hspec].
  exists fuel0. intros fuel Hfuel.
  destruct (Hspec fuel Hfuel)
    as (hidden1 & hidden2 & this1' & this2' & Hv1 & Hv2 & Hs1 & Hs2).
  exists (entriesOutside this hidden1), this1', this2'.
  split; [done|]. rewrite Hv2. do 2 f_equal.
  assert (Hacts : ∀ a, a ∈ activeActions (applyAction this inner) →
                       a ∈ activeActions this ∨ a = inner).
  { intros a. unfold applyAction.
    destruct (actionIsActive this inner); [by left|]. simpl.
    rewrite elem_of_app, list_elem_of_singleton. done. }
  assert (hidden1 = hidden2) as ->.
  { apply (anti_symm (⊆)).
    - apply (hiddenSet_mono this (applyAction this inner));
        [congruence| |done..].
      intros a Ha. unfold applyAction.
      destruct (actionIsActive this inner); [done|]. simpl.
      apply elem_of_app. by left.
    - intros e (a & Ha & Hh)%Hs2. apply Hs1.
      destruct (Hacts a Ha) as [Hin| ->].
      + exists a. split; [done|]. congruence.
      + exists outer. split; [done|]. rewrite Hidx2 in Hh. rewrite Hidx1.
        unfold hiddenBy in Hh |- *. simpl in Hh. rewrite Htype.
        destruct Hh as (n' & d' & Hn' & Hd' & He).
        assert (n' = d) as -> by congruence.
        exists n, d'. split; [done|]. split; [|done].
        unfold descendantOf in *. by etrans. }
  unfold entriesOutside. congruence.
Qed.
End visibility_more.

(** * More theorems on the sample data *)
Section more_samples.
Import Trace TraceHelpers TreeManipulator Examples MoreExamples.

Lemma mergeEventsInOrder_assoc_witness :
  sortedEvents [evLong; evShort; evLate] ∧ sortedEvents [evShort] ∧
  sortedEvents [evShort] ∧
  (mergeEventsInOrder [evLong; evShort; evLate] [evShort] ≫= λ ab,
     mergeEventsInOrder ab [evShort])
  = (mergeEventsInOrder [evShort] [evShort] ≫= λ bc,
       mergeEventsInOrder [evLong; evShort; evLate] bc).
Proof.
  split; [apply sample_sorted|]. do 2 (split; [apply sample_sorted|]).
  apply (mergeEventsInOrder_assoc [evLong; evShort; evLate] [evShort]
           [evShort]); apply sample_sorted.
Defined.

Lemma key_collision_witness :
  Event.ph collidingBegin = ASYNC_NESTABLE_START ∧
  Event.ph collidingEnd = ASYNC_NESTABLE_END ∧
  Event.cat collidingBegin = Event.cat collidingEnd ∧
  extractId collidingBegin = Some "7" ∧
  extractId collidingEnd = Some ("7" +:+ ":" +:+ "a") ∧
  Event.name collidingBegin = "a" +:+ ":" +:+ Event.name collidingEnd ∧
  Event.ts collidingBegin ≤ Event.ts collidingEnd ∧
  keyOf collidingBegin = keyOf collidingEnd ∧
  Event.name collidingBegin ≠ Event.name collidingEnd ∧
  ∃ s, createMatchedSortedSyntheticEvents [collidingBegin; collidingEnd]
         = [s] ∧
       ArgsData.beginEvent (Args.data (Synthetic.args s)) = collidingBegin ∧
       ArgsData.endEvent (Args.data (Synthetic.args s)) = collidingEnd.
Proof.
  do 6 (split; [reflexivity|]). split; [by vm_compute|].
  apply (key_collision collidingBegin collidingEnd "7" "a");
    try reflexivity.
  by vm_compute.
Defined.

Lemma key_injective_witness :
  extractId asyncBegin = Some "7" ∧ extractId asyncEnd = Some "7" ∧
  colonFree (Event.cat asyncBegin) ∧ colonFree (Event.cat asyncEnd) ∧
  colonFree "7" ∧
  keyOf asyncBegin = keyOf asyncEnd ∧
  Event.cat asyncBegin = Event.cat asyncEnd ∧ "7" = "7" ∧
  Event.name asyncBegin = Event.name asyncEnd.
Proof.
  assert (Hcat : colonFree "loading") by (simpl; repeat split; discriminate).
  assert (Hid : colonFree "7") by (simpl; repeat split; discriminate).
  do 2 (split; [reflexivity|]). do 2 (split; [exact Hcat|]).
  split; [exact Hid|]. split; [reflexivity|].
  exact (key_injective asyncBegin asyncEnd "7" "7" eq_refl eq_refl
           Hcat Hcat Hid Hid eq_refl).
Defined.

Lemma activeActions_NoDup_witness :
  reachable thread entryToNode collapsedAndMerged ∧
  NoDup (activeActions collapsedAndMerged).
Proof.
  split; [exact sample_reachable|].
  exact (activeActions_NoDup thread entryToNode collapsedAndMerged
           sample_reachable).
Defined.

Lemma applyAction_removeActiveAction_undo_witness :
  actionIsActive collapsedAndCached mergeB = false ∧
  removeActiveAction (applyAction collapsedAndCached mergeB) mergeB
    = mk (TreeManipulator.thread collapsedAndCached)
        (TreeManipulator.entryToNode collapsedAndCached) None
        (activeActions collapsedAndCached).
Proof.
  split; [reflexivity|].
  exact (applyAction_removeActiveAction_undo collapsedAndCached mergeB
           eq_refl).
Defined.

Lemma visibleEntries_again_witness :
  visibleEntries 5 collapsed
    = Some ([entryR; entryA; entryB], collapsedAndCached) ∧
  ∀ fuel', visibleEntries fuel' collapsedAndCached
             = Some ([entryR; entryA; entryB], collapsedAndCached).
Proof.
  split; [reflexivity|].
  exact (visibleEntries_again collapsed 5 [entryR; entryA; entryB]
           collapsedAndCached eq_refl).
Defined.

Lemma visibleEntries_sublist_witness :
  reachable thread entryToNode collapsedAndMerged ∧
  visibleEntries 5 collapsedAndMerged
    = Some ([entryR; entryA], collapsedAndMergedCached) ∧
  [entryR; entryA] `sublist_of` Thread.entries thread.
Proof.
  split; [exact sample_reachable|]. split; [reflexivity|].
  exact (visibleEntries_sublist thread entryToNode collapsedAndMerged 5
           [entryR; entryA] collapsedAndMergedCached sample_reachable
           eq_refl).
Defined.

Lemma findAllAncestorsOfNode_falsy_id_witness :
  Node.childrenIds nodeCut = [2%N] ++ 0%N :: [3%N] ∧
  Forall (λ c, c ≠ 0%N) [2%N] ∧ (length [2%N] < 2)%nat ∧
  findAllAncestorsOfNode 2 tree nodeCut
  = Some (omap (λ id, Node.entry <$> Tree.nodes tree !! id) [2%N]).
Proof.
  assert (Hids : Forall (λ c, c ≠ 0%N) [2%N]) by (by repeat constructor).
  assert (Hfuel : (length [2%N] < 2)%nat) by (simpl; lia).
  split; [reflexivity|]. split; [exact Hids|]. split; [exact Hfuel|].
  exact (findAllAncestorsOfNode_falsy_id tree 2 nodeCut [2%N] [3%N] eq_refl
           Hids Hfuel).
Defined.

Lemma sample_collapsed : reachable thread entryToNode collapsed.
Proof. apply reachable_applyAction, reachable_constructor. Defined.

Lemma visibleEntries_never_stale_witness :
  Thread.tree thread = Some tree ∧
  wellFormed tree entryToNode ∧
  reachable thread entryToNode collapsedAndCached ∧
  ∃ fuel0, ∀ fuel, (fuel0 ≤ fuel)%nat →
    ∃ visible this',
      visibleEntries fuel collapsedAndCached = Some (visible, this') ∧
      ∀ e, e ∈ visible ↔
           e ∈ Thread.entries thread ∧
           ∀ a, a ∈ activeActions collapsedAndCached →
                ¬ hiddenBy entryToNode tree a e.
Proof.
  split; [reflexivity|]. split; [exact sample_wellFormed|].
  split; [exact sample_cached|].
  exact (visibleEntries_never_stale thread entryToNode tree eq_refl
           sample_wellFormed collapsedAndCached sample_cached).
Defined.

Lemma visibleEntries_monotone_witness :
  Thread.tree thread = Some tree ∧
  wellFormed tree entryToNode ∧
  reachable thread entryToNode collapsed ∧
  reachable thread entryToNode collapsedAndMerged ∧
  (∀ a, a ∈ activeActions collapsed → a ∈ activeActions collapsedAndMerged) ∧
  ∃ fuel0, ∀ fuel, (fuel0 ≤ fuel)%nat →
    ∃ visible1 visible2 this1' this2',
      visibleEntries fuel collapsed = Some (visible1, this1') ∧
      visibleEntries fuel collapsedAndMerged = Some (visible2, this2') ∧
      visible2 `sublist_of` visible1.
Proof.
  assert (Hsub : ∀ a, a ∈ activeActions collapsed →
                      a ∈ activeActions collapsedAndMerged).
  { intros a Ha. apply (proj1 (list_elem_of_singleton a collapseA)) in Ha.
    rewrite Ha. vm_compute. by left. }
  split; [reflexivity|]. split; [exact sample_wellFormed|].
  split; [exact sample_collapsed|]. split; [exact sample_reachable|].
  split; [exact Hsub|].
  exact (visibleEntries_monotone thread entryToNode tree eq_refl
           sample_wellFormed collapsed collapsedAndMerged sample_collapsed
           sample_reachable Hsub).
Defined.

Lemma sample_mergedAndCollapsed :
  reachable thread entryToNode mergedAndCollapsed.
Proof. do 2 apply reachable_applyAction. apply reachable_constructor. Defined.

Lemma visibleEntries_order_independent_witness :
  Thread.tree thread = Some tree ∧
  wellFormed tree entryToNode ∧
  reachable thread entryToNode collapsedAndMerged ∧
  reachable thread entryToNode mergedAndCollapsed ∧
  activeActions collapsedAndMerged ≡ₚ activeActions mergedAndCollapsed ∧
  ∃ fuel0, ∀ fuel, (fuel0 ≤ fuel)%nat →
    ∃ visible this1' this2',
      visibleEntries fuel collapsedAndMerged = Some (visible, this1') ∧
      visibleEntries fuel mergedAndCollapsed = Some (visible, this2').
Proof.
  assert (Hperm : activeActions collapsedAndMerged
                  ≡ₚ activeActions mergedAndCollapsed).
  { change ([collapseA; mergeB] ≡ₚ [mergeB; collapseA]). apply perm_swap. }
  split; [reflexivity|]. split; [exact sample_wellFormed|].
  split; [exact sample_reachable|]. split; [exact sample_mergedAndCollapsed|].
  split; [exact Hperm|].
  exact (visibleEntries_order_independent thread entryToNode tree eq_refl
           sample_wellFormed collapsedAndMerged mergedAndCollapsed
           sample_reachable sample_mergedAndCollapsed Hperm).
Defined.

Lemma sample_collapsedRoot : reachable thread entryToNode collapsedRoot.
Proof. apply reachable_applyAction, reachable_constructor. Defined.

Lemma nested_collapse_absorbed_witness :
  Thread.tree thread = Some tree ∧
  wellFormed tree entryToNode ∧
  reachable thread entryToNode collapsedRoot ∧
  collapseR ∈ activeActions collapsedRoot ∧
  Action.type collapseR = COLLAPSE_FUNCTION ∧
  entryToNode !! Action.entry collapseR = Some nodeR ∧
  entryToNode !! entryA = Some nodeA ∧
  descendantOf tree nodeA nodeR ∧
  ∃ fuel0, ∀ fuel, (fuel0 ≤ fuel)%nat →
    ∃ visible this1 this2,
      visibleEntries fuel collapsedRoot = Some (visible, this1) ∧
      visibleEntries fuel
        (applyAction collapsedRoot (Action.mk COLLAPSE_FUNCTION entryA))
        = Some (visible, this2).
Proof.
  assert (Hin : collapseR ∈ activeActions collapsedRoot)
    by (vm_compute; by left).
  assert (Hn : entryToNode !! Action.entry collapseR = Some nodeR)
    by reflexivity.
  assert (Hd : entryToNode !! entryA = Some nodeA) by reflexivity.
  assert (Hdesc : descendantOf tree nodeA nodeR).
  { apply tc_once. exists 2%N. split; [vm_compute; by left|reflexivity]. }
  split; [reflexivity|]. split; [exact sample_wellFormed|].
  split; [exact sample_collapsedRoot|]. split; [exact Hin|].
  split; [reflexivity|]. split; [exact Hn|]. split; [exact Hd|].
  split; [exact Hdesc|].
  exact (nested_collapse_absorbed thread entryToNode tree eq_refl
           sample_wellFormed collapsedRoot collapseR entryA nodeR nodeA
           sample_collapsedRoot Hin eq_refl Hn Hd Hdesc).
Defined.
End more_samples.
